(** * Ring-median background filter ([hugs/imtools/rmedian.py])

    A shallow embedding of [_ring] and [rmedian] together with the two
    library primitives they rest on: NumPy's array constructors and
    SciPy's [ndimage.median_filter].

    Modelling conventions.
    - An [ndarray] is what NumPy stores: a shape and a row-major buffer.
      Pixel values are integers (an integer dtype); only their order
      matters to a rank filter.
    - Radii are rationals; every double is one.  The array [r] of
      distances is kept as the array of its radicands [i^2 + j^2], and
      [np.sqrt] of a radicand is the double nearest to its square root
      ([np_sqrt]), which is what lines 31 and 32 compare with the radii
      ([sqrt_gtb], [sqrt_leb]).  Integers are unbounded.
    - Python exceptions are values of [exception]; a function that can
      raise returns [exception + _]. *)

From Stdlib Require Import Ascii DecimalString DecimalN.
From Stdlib Require Import String ZArith QArith Qround List Bool Lia.
From Stdlib Require Import Permutation Sorted.
From Stdlib Require Import Reals Qreals Lra.
Import ListNotations.
Local Open Scope Z_scope.

(** ** Exceptions *)

Inductive exception : Type :=
| AssertionError (msg : string)
| RuntimeError (msg : string)
| NotImplementedError (msg : string).

(** ** NumPy *)

Module Np.

Record ndarray : Type := mk_ndarray { shape : list nat; data : list Z }.

Definition ndim (a : ndarray) : nat := length (shape a).

(** Number of elements announced by the shape. *)
Definition size (a : ndarray) : nat := fold_right Nat.mul 1%nat (shape a).

(** A buffer as long as its shape says. *)
Definition well_formed (a : ndarray) : Prop := length (data a) = size a.

(** [np.arange(start, stop)] on integers. *)
Definition arange (start stop : Z) : list Z :=
  map (fun k => start + Z.of_nat k) (seq 0 (Z.to_nat (stop - start))).

(** Broadcasting of a column against a row: the buffer of the 2D array
    whose entry [(i, j)] is [f col[i] row[j]]. *)
Definition outer {A B C : Type} (f : A -> B -> C)
  (col : list A) (row : list B) : list C :=
  flat_map (fun a => map (f a) row) col.

(** [a[i, j]] for a two-dimensional array. *)
Definition item2 (a : ndarray) (i j : nat) : Z :=
  match shape a with
  | [_; w] => nth (i * w + j) (data a) 0
  | _ => 0
  end.

(** [np.where(a, 1, 0).sum()] *)
Definition count_nonzero (a : ndarray) : nat :=
  length (filter (fun v => negb (v =? 0)) (data a)).

End Np.

Import Np.

(** ** Distances against radii *)

(** Python's [int(q)]: truncation toward zero. *)
Definition int (q : Q) : Z := Z.quot (Qnum q) (Z.pos (Qden q)).

(** [np.sqrt(n)] for an integer [0 <= n < 2^53], as a rational: the
    double nearest to the square root of [n].  With [4^e <= n < 4^(e+1)]
    the root lies in [2^e, 2^(e+1)), where the doubles are the multiples
    of [2^(e-52)]; the root of an integer is never half way between two
    of them, so that rounding to nearest needs no tie rule. *)
Definition np_sqrt (n : Z) : Q :=
  if n <=? 0 then 0%Q
  else
    let s := 52 - Z.log2 n / 2 in
    let N := n * 4 ^ s in
    let t := Z.sqrt N in
    let m := if t <? N - t * t then t + 1 else t in
    Qmake m (Z.to_pos (2 ^ s)).

(** The real number [sqrt n] is at most [q], decided on squares. *)
Definition exact_leb (n : Z) (q : Q) : bool :=
  Qle_bool 0 q && Qle_bool (inject_Z n) (q * q).

(** [np.sqrt(n) <= q] for a radicand [n >= 0].  A radicand of [2^53] or
    more cannot arise, the footprint would have more than [2^53] cells;
    the comparison is then left without rounding. *)
Definition sqrt_leb (n : Z) (q : Q) : bool :=
  if n <? 2 ^ 53 then Qle_bool (np_sqrt n) q else exact_leb n q.

(** [np.sqrt(n) > q] for a radicand [n >= 0]. *)
Definition sqrt_gtb (n : Z) (q : Q) : bool := negb (sqrt_leb n q).

(** ** [_ring] *)

(** A boolean cast to the integer dtype. *)
Definition astype (b : bool) : Z := if b then 1 else 0.

(** The membership test of line 32, on the radicand of a cell. *)
Definition in_annulus (r_inner r_outer : Q) (d2 : Z) : bool :=
  sqrt_gtb d2 r_inner && sqrt_leb d2 r_outer.

(** [_ring(r_inner, r_outer, invert=invert)], with [dtype] at its default:
    the cells are the integers 0 and 1.  ([median_filter] reads a footprint
    as booleans, so [dtype] has no bearing on [rmedian].) *)
Definition _ring (r_inner r_outer : Q) (invert : bool)
  : exception + ndarray :=
  if negb (Qle_bool r_inner r_outer)
  then inl (AssertionError "must have r_outer >= r_inner")
  else
    let x := arange (- int r_outer) (int r_outer + 1) in
    (* radicands of r = np.sqrt(x**2 + x[:,None]**2) *)
    let r := outer (fun xi xj => xj ^ 2 + xi ^ 2) x x in
    let annulus := map (in_annulus r_inner r_outer) r in
    let annulus := if invert then map negb annulus else annulus in
    (* r[annulus] = 1; r[~annulus] = 0; r.astype(dtype) *)
    let fp := map astype annulus in
    inr (mk_ndarray [length x; length x] fp).

(** ** SciPy's [ndimage.median_filter] *)

Module Ndimage.

(** Boundary modes of [scipy.ndimage] filters. *)
Inductive extend_mode : Type := reflect | constant | nearest | mirror | wrap.

(** Where index [i] of an axis of length [len] is read from; [None] stands
    for the fill value of [constant]. *)
Definition extend (m : extend_mode) (len i : Z) : option Z :=
  if (0 <=? i) && (i <? len) then Some i
  else match m with
       | reflect =>
           let k := i mod (2 * len) in
           Some (if k <? len then k else 2 * len - 1 - k)
       | constant => None
       | nearest => Some (if i <? 0 then 0 else len - 1)
       | mirror =>
           if len <=? 1 then Some 0
           else let k := i mod (2 * len - 2) in
                Some (if k <? len then k else 2 * len - 2 - k)
       | wrap => Some (i mod len)
       end.

(** The input pixel seen at position [(i, j)] of the extended image. *)
Definition pixel (m : extend_mode) (cval : Z) (input : ndarray)
  (h w : nat) (i j : Z) : Z :=
  match extend m (Z.of_nat h) i, extend m (Z.of_nat w) j with
  | Some i', Some j' => nth (Z.to_nat i' * w + Z.to_nat j') (data input) 0
  | _, _ => cval
  end.

(** Offsets, relative to the centre [(fh / 2, fw / 2)], of the non-zero
    cells of a footprint, in row-major order. *)
Definition offsets (fp : ndarray) (fh fw : nat) : list (Z * Z) :=
  map (fun c : nat * nat =>
         (Z.of_nat (fst c) - Z.of_nat (fh / 2),
          Z.of_nat (snd c) - Z.of_nat (fw / 2)))
      (filter (fun c : nat * nat => negb (item2 fp (fst c) (snd c) =? 0))
              (outer pair (seq 0 fh) (seq 0 fw))).

(** The input pixels a footprint selects around [(i, j)]. *)
Definition window (m : extend_mode) (cval : Z) (input : ndarray)
  (h w : nat) (offs : list (Z * Z)) (i j : nat) : list Z :=
  map (fun d : Z * Z =>
         pixel m cval input h w (Z.of_nat i + fst d) (Z.of_nat j + snd d))
      offs.

Fixpoint insert (x : Z) (l : list Z) : list Z :=
  match l with
  | [] => [x]
  | y :: t => if x <=? y then x :: l else y :: insert x t
  end.

Fixpoint sort (l : list Z) : list Z :=
  match l with
  | [] => []
  | x :: t => insert x (sort t)
  end.

(** The element of rank [rank] (counted from 0, ascending) of a window. *)
Definition select (rank : nat) (l : list Z) : Z := nth rank (sort l) 0.

Definition rank_filter2 (input : ndarray) (h w : nat) (rank : nat)
  (fp : ndarray) (fh fw : nat) (m : extend_mode) (cval : Z) : ndarray :=
  let offs := offsets fp fh fw in
  mk_ndarray [h; w]
    (outer (fun i j => select rank (window m cval input h w offs i j))
           (seq 0 h) (seq 0 w)).

(** [median_filter(input, footprint=footprint, mode=m, cval=cval)], origin 0.
    The checks are those of [_rank_filter], in its order; the filter itself
    is modelled for two-dimensional footprints, the only ones [_ring]
    builds. *)
Definition median_filter (input footprint : ndarray)
  (m : extend_mode) (cval : Z) : exception + ndarray :=
  let fshape := filter (fun n => 0 <? n)%nat (shape footprint) in
  if negb (length fshape =? ndim input)%nat
  then inl (RuntimeError "footprint array has incorrect shape.")
  else
    let filter_size := count_nonzero footprint in
    let rank := (filter_size / 2)%nat in
    if (filter_size <=? rank)%nat
    then inl (RuntimeError "rank not within filter footprint size")
    else match shape input, shape footprint with
         | [h; w], [fh; fw] =>
             inr (rank_filter2 input h w rank footprint fh fw m cval)
         | _, _ =>
             inl (NotImplementedError "footprint is not two-dimensional")
         end.

End Ndimage.

Import Ndimage.

(** ** [rmedian] *)

(** [rmedian(data, r_inner, r_outer, invert=invert)]; the call of line 59
    leaves [mode] and [cval] at their defaults, ["reflect"] and [0.0]. *)
Definition rmedian (data : ndarray) (r_inner r_outer : Q) (invert : bool)
  : exception + ndarray :=
  match _ring r_inner r_outer invert with
  | inl e => inl e
  | inr fp => median_filter data fp reflect 0
  end.

(** * File names of stamps ([hugs/tasks/stamps.py])

    [get_candy_stamps] renames the cutouts it downloads, and [fit_candy]
    and [run_batch_fit] find them again by taking the names apart.  The
    expressions that build and read the names are embedded here; the
    directory listing, the download and the fits around them are not.
    Strings are byte strings. *)

Module Stamps.

(** The exceptions of indexing and of [int]. *)
Inductive error : Type := IndexError | ValueError.

(** [c in s] for a character [c]. *)
Fixpoint contains (c : ascii) (s : string) : bool :=
  match s with
  | EmptyString => false
  | String x t => Ascii.eqb x c || contains c t
  end.

(** [s.split(sep)] for a one-character separator. *)
Fixpoint str_split (sep : ascii) (s : string) : list string :=
  match s with
  | EmptyString => [EmptyString]
  | String c t =>
      if Ascii.eqb c sep then EmptyString :: str_split sep t
      else match str_split sep t with
           | x :: r => String c x :: r
           | [] => [String c EmptyString]
           end
  end.

(** [l[k]] on a list; a negative [k] counts from the end. *)
Definition getitem (l : list string) (k : Z) : error + string :=
  let n := Z.of_nat (length l) in
  let k' := if k <? 0 then k + n else k in
  if (0 <=? k') && (k' <? n) then inr (nth (Z.to_nat k') l EmptyString)
  else inl IndexError.

(** [s.replace(a, b)] for one-character [a] and [b]. *)
Fixpoint str_replace (a b : ascii) (s : string) : string :=
  match s with
  | EmptyString => EmptyString
  | String c t => String (if Ascii.eqb c a then b else c) (str_replace a b t)
  end.

(** [s.lower()]: the letters [A] to [Z] become [a] to [z]. *)
Definition lower_char (c : ascii) : ascii :=
  let n := nat_of_ascii c in
  if (65 <=? n)%nat && (n <=? 90)%nat then ascii_of_nat (n + 32) else c.

Fixpoint str_lower (s : string) : string :=
  match s with
  | EmptyString => EmptyString
  | String c t => String (lower_char c) (str_lower t)
  end.

(** [str(n)], which is also ['{}'.format(n)], for an integer [n >= 0]. *)
Definition str (n : N) : string := NilEmpty.string_of_uint (N.to_uint n).

(** The new name of a cutout (lines 60 to 62): from the old name
    [old_fn], the candidate number [num] given by [enumerate] and the band
    [bands[i]]. *)
Definition new_fn (obj_type : string) (num : N) (band old_fn : string)
  : error + string :=
  match getitem (str_split "-" old_fn) (-1) with
  | inl e => inl e
  | inr rerun =>
      let rerun := str_replace "_" "-" rerun in
      inr (obj_type ++ "-" ++ str num ++ "-" ++ str_lower band ++ "-"
           ++ rerun)%string
  end.

(** The condition of the list comprehension of [fit_candy] (lines 84 and
    85), [f.split('-')[-1]=='wide.fits' and int(f.split('-')[1])==num],
    over a given [int]; [and] evaluates its right operand only when the
    left one holds. *)
Definition fit_candy_selects (int : string -> error + Z) (num : Z)
  (f : string) : error + bool :=
  match getitem (str_split "-" f) (-1) with
  | inl e => inl e
  | inr ending =>
      if String.eqb ending "wide.fits" then
        match getitem (str_split "-" f) 1 with
        | inl e => inl e
        | inr field =>
            match int field with
            | inl e => inl e
            | inr n => inr (n =? num)
            end
        end
      else inr false
  end.

(** The band read off a file name by [fit_candy] (lines 96 and 154):
    [fn.split('-')[2]]. *)
Definition band_of (fn : string) : error + string :=
  getitem (str_split "-" fn) 2.

(** The condition of the list comprehension of [run_batch_fit] (lines 224
    and 225): [f.split('-')[-1]=='wide.fits']. *)
Definition is_stamp (f : string) : error + bool :=
  match getitem (str_split "-" f) (-1) with
  | inl e => inl e
  | inr ending => inr (String.eqb ending "wide.fits")
  end.

(** [c.isspace()] and [c.isdigit()] for a byte. *)
Definition is_space (c : ascii) : bool :=
  let n := nat_of_ascii c in
  ((9 <=? n)%nat && (n <=? 13)%nat) || (n =? 32)%nat.

Definition is_digit (c : ascii) : bool :=
  let n := nat_of_ascii c in (48 <=? n)%nat && (n <=? 57)%nat.

(** [s.strip()]: the blanks at both ends are dropped. *)
Fixpoint lstrip (s : string) : string :=
  match s with
  | EmptyString => EmptyString
  | String c t => if is_space c then lstrip t else s
  end.

Fixpoint rstrip (s : string) : string :=
  match s with
  | EmptyString => EmptyString
  | String c t =>
      match rstrip t with
      | EmptyString => if is_space c then EmptyString else String c EmptyString
      | t' => String c t'
      end
  end.

Definition str_strip (s : string) : string := rstrip (lstrip s).

(** The digits of a decimal literal, which is one or more digits with
    single underscores allowed between them; [after_digit] tells whether
    the previous character was a digit. *)
Fixpoint digits_of (after_digit : bool) (s : string) : option string :=
  match s with
  | EmptyString => if after_digit then Some EmptyString else None
  | String c t =>
      if is_digit c then option_map (String c) (digits_of true t)
      else if Ascii.eqb c "_" && after_digit then digits_of false t
      else None
  end.

(** [int(s)] for a string [s], in base 10: blanks around the literal are
    dropped, one sign may precede the digits, and anything else raises
    [ValueError].  The value has no bound. *)
Definition int_of_str (s : string) : error + Z :=
  let s := str_strip s in
  let signed :=
    match s with
    | String c t =>
        if Ascii.eqb c "-" then (true, t)
        else if Ascii.eqb c "+" then (false, t)
        else (false, s)
    | EmptyString => (false, s)
    end in
  match digits_of false (snd signed) with
  | Some d =>
      match NilZero.uint_of_string d with
      | Some u =>
          let n := Z.of_N (N.of_uint u) in
          inr (if fst signed then - n else n)
      | None => inl ValueError
      end
  | None => inl ValueError
  end.

(** A string of digits only. *)
Fixpoint all_digits (s : string) : bool :=
  match s with
  | EmptyString => true
  | String c t => is_digit c && all_digits t
  end.

End Stamps.

(** * Vocabulary of the properties *)

(** Side of the footprint built for an outer radius. *)
Definition side (r_outer : Q) : nat := Z.to_nat (2 * int r_outer + 1).

(** Squared distance to the centre of the cell in row [i], column [j]. *)
Definition radicand (r_outer : Q) (i j : nat) : Z :=
  (Z.of_nat j - int r_outer) ^ 2 + (Z.of_nat i - int r_outer) ^ 2.

(** Footprint cell at row offset [a] and column offset [b] from the centre
    cell [(int r_outer, int r_outer)]. *)
Definition cell_at (fp : ndarray) (r_outer : Q) (a b : Z) : Z :=
  item2 fp (Z.to_nat (a + int r_outer)) (Z.to_nat (b + int r_outer)).

(** [np.rot90(a, 2)] on a two-dimensional array: the buffer read
    backwards. *)
Definition rot180 (a : ndarray) : ndarray :=
  mk_ndarray (shape a) (rev (data a)).

(** [a.T] on a two-dimensional array. *)
Definition transpose (a : ndarray) : ndarray :=
  match shape a with
  | [h; w] =>
      mk_ndarray [w; h] (outer (fun j i => item2 a i j) (seq 0 w) (seq 0 h))
  | _ => a
  end.

(** The claim that, for radii [0 <= r_inner <= r_outer], a cell of the
    plain footprint holds 1 exactly when its Euclidean distance to the
    centre, the real number [sqrt (a^2 + b^2)], lies in
    [(r_inner, r_outer]]. *)
Definition annulus_by_exact_distance : Prop :=
  forall (ri ro : Q) (a b : Z),
    (0 <= ri)%Q -> (ri <= ro)%Q ->
    - int ro <= a <= int ro -> - int ro <= b <= int ro ->
    exists fp, _ring ri ro false = inr fp /\
      (cell_at fp ro a b = 1
       <-> (Q2R ri < sqrt (IZR (a * a + b * b))
            /\ sqrt (IZR (a * a + b * b)) <= Q2R ro)%R).

(** The claim that every call with a negative radius raises. *)
Definition negative_radius_rejected : Prop :=
  forall (ri ro : Q) (inv : bool),
    (ri < 0)%Q \/ (ro < 0)%Q -> exists e, _ring ri ro inv = inl e.

(** Number of elements of a list that pass a test. *)
Definition count (p : Z -> bool) (l : list Z) : nat := length (filter p l).

(** A median of a list: one of its values, with at least half of the list
    at or below it and at least half at or above it. *)
Definition is_median (l : list Z) (m : Z) : Prop :=
  In m l /\
  (length l <= 2 * count (fun x => Z.leb x m) l)%nat /\
  (length l <= 2 * count (fun x => Z.leb m x) l)%nat.

(** The median of the textbooks: the middle value of an odd number of
    values, the mean of the two middle ones otherwise ([np.median]);
    [m] is that median when [2 * m] is the sum of the two middle values. *)
Definition is_midpoint_median (l : list Z) (m : Z) : Prop :=
  2 * m = nth ((length l - 1) / 2) (sort l) 0 + nth (length l / 2) (sort l) 0.

(** Offsets from the centre of the 1-cells of a footprint, row by row. *)
Definition selected (fp : ndarray) (r_outer : Q) : list (Z * Z) :=
  filter (fun c : Z * Z => cell_at fp r_outer (fst c) (snd c) =? 1)
         (outer pair (arange (- int r_outer) (int r_outer + 1))
                     (arange (- int r_outer) (int r_outer + 1))).

(** The claim that, on every two-dimensional image and for every radii
    pair [0 <= r_inner <= r_outer], [rmedian] returns an array of the
    shape of its input whose pixels are medians of the pixels the 1-cells
    of the footprint select. *)
Definition rmedian_median_for_all_valid_radii : Prop :=
  forall (image : ndarray) (h w : nat) (ri ro : Q) (inv : bool),
    shape image = [h; w] -> well_formed image ->
    (0 <= ri)%Q -> (ri <= ro)%Q ->
    exists fp out,
      _ring ri ro inv = inr fp /\ rmedian image ri ro inv = inr out /\
      shape out = shape image /\
      forall i j, (i < h)%nat -> (j < w)%nat ->
        is_median (window reflect 0 image h w (selected fp ro) i j)
                  (item2 out i j).

(** [np.full((h, w), c)]: the image whose pixels all hold [c]. *)
Definition constant_image (c : Z) (h w : nat) : ndarray :=
  mk_ndarray [h; w] (repeat c (h * w)).

(** The claim that a constant image is returned unchanged for every
    radii pair [0 <= r_inner <= r_outer]. *)
Definition constant_image_fixed_for_all_valid_radii : Prop :=
  forall (c : Z) (h w : nat) (ri ro : Q) (inv : bool),
    (0 <= ri)%Q -> (ri <= ro)%Q ->
    rmedian (constant_image c h w) ri ro inv = inr (constant_image c h w).

(** A line extended by reflection about its two ends,
    [... c b a | a b c | c b a ...], read at any integer position: the
    line followed by its mirror image, repeated. *)
Definition reflected_line {A : Type} (d : A) (l : list A) (k : Z) : A :=
  nth (Z.to_nat (k mod (2 * Z.of_nat (length l)))) (l ++ rev l) d.

(** The rows of a two-dimensional array. *)
Definition rows (a : ndarray) (h w : nat) : list (list Z) :=
  map (fun i => firstn w (skipn (i * w) (data a))) (seq 0 h).

(** An image extended by reflection about its four edges. *)
Definition reflected_image (a : ndarray) (h w : nat) (i j : Z) : Z :=
  reflected_line 0 (reflected_line [] (rows a h w) i) j.

(** [np.flipud(a)] on a two-dimensional array: rows in reverse order. *)
Definition flipud (a : ndarray) : ndarray :=
  match shape a with
  | [h; w] =>
      mk_ndarray [h; w]
        (outer (fun i j => item2 a (h - 1 - i) j) (seq 0 h) (seq 0 w))
  | _ => a
  end.

(** [np.fliplr(a)] on a two-dimensional array: columns in reverse order. *)
Definition fliplr (a : ndarray) : ndarray :=
  match shape a with
  | [h; w] =>
      mk_ndarray [h; w]
        (outer (fun i j => item2 a i (w - 1 - j)) (seq 0 h) (seq 0 w))
  | _ => a
  end.

(** [np.rot90(a)] on a two-dimensional array: a quarter turn,
    counterclockwise. *)
Definition rot90 (a : ndarray) : ndarray :=
  match shape a with
  | [h; w] =>
      mk_ndarray [w; h]
        (outer (fun i j => item2 a j (w - 1 - i)) (seq 0 w) (seq 0 h))
  | _ => a
  end.

(** A function applied to every pixel, as a ufunc is. *)
Definition map_pixels (f : Z -> Z) (a : ndarray) : ndarray :=
  mk_ndarray (shape a) (map f (data a)).

(** * Properties *)

(** ** The rounded square root *)

Section SquareRoot.

Local Open Scope R_scope.

Lemma Q2R_inject_Z (n : Z) : Q2R (inject_Z n) = IZR n.
Proof. unfold Q2R; simpl. field. Qed.

Lemma exact_leb_spec (n : Z) (q : Q) :
  (0 <= n)%Z -> exact_leb n q = true <-> sqrt (IZR n) <= Q2R q.
Proof.
  intros Hn. unfold exact_leb.
  rewrite andb_true_iff, !Qle_bool_iff.
  assert (Hn' : 0 <= IZR n) by (apply IZR_le; exact Hn).
  split.
  - intros [Hq Hsq].
    apply Qle_Rle in Hq. apply Qle_Rle in Hsq.
    rewrite Q2R_mult, Q2R_inject_Z in Hsq.
    replace (Q2R 0) with 0 in Hq by (unfold Q2R; simpl; field).
    rewrite <- (sqrt_square (Q2R q)) by exact Hq.
    apply sqrt_le_1; try assumption.
    apply Rmult_le_pos; assumption.
  - intros H.
    pose proof (sqrt_pos (IZR n)) as Hs.
    assert (Hq : 0 <= Q2R q) by lra.
    split.
    + apply Rle_Qle. replace (Q2R 0) with 0 by (unfold Q2R; simpl; field).
      exact Hq.
    + apply Rle_Qle. rewrite Q2R_mult, Q2R_inject_Z.
      rewrite <- (sqrt_sqrt (IZR n)) by exact Hn'.
      apply Rmult_le_compat; assumption.
Qed.

Lemma exact_gtb_spec (n : Z) (q : Q) :
  (0 <= n)%Z -> exact_leb n q = false <-> Q2R q < sqrt (IZR n).
Proof.
  intros Hn. pose proof (exact_leb_spec n q Hn) as H.
  destruct (exact_leb n q).
  - split; [discriminate|]. intros Hlt.
    assert (sqrt (IZR n) <= Q2R q) by (apply H; reflexivity). lra.
  - split; [intros _|reflexivity].
    apply Rnot_le_lt. intros Hle. apply H in Hle. discriminate.
Qed.

End SquareRoot.

Lemma sqrt_gtb_negb (n : Z) (q : Q) : sqrt_gtb n q = negb (sqrt_leb n q).
Proof. reflexivity. Qed.

Lemma exact_leb_Z (n z : Z) :
  0 <= z -> exact_leb n (inject_Z z) = true <-> n <= z * z.
Proof.
  intros Hz. unfold exact_leb.
  rewrite andb_true_iff, !Qle_bool_iff.
  unfold Qle, Qmult, inject_Z. cbn [Qnum Qden]. lia.
Qed.

(** The parts of [np_sqrt n]: a scale [P = 2^s], the integer square root
    [t] of [n * P^2] and its rounding [m]. *)
Lemma np_sqrt_parts (n : Z) :
  0 < n -> n < 2 ^ 53 ->
  exists P t : Z,
    2 ^ 26 <= P /\ 0 <= t /\
    t * t <= n * (P * P) /\ n * (P * P) < (t + 1) * (t + 1) /\
    np_sqrt n
    = Qmake (if t <? n * (P * P) - t * t then t + 1 else t) (Z.to_pos P).
Proof.
  intros Hn Hb.
  assert (Hlog : 0 <= Z.log2 n < 53).
  { split; [apply Z.log2_nonneg|]. now apply Z.log2_lt_pow2. }
  set (s := 52 - Z.log2 n / 2).
  assert (Hdiv : Z.log2 n / 2 <= 26)
    by (apply Z.div_le_upper_bound; lia).
  assert (Hs : 26 <= s) by (unfold s; lia).
  exists (2 ^ s), (Z.sqrt (n * (2 ^ s * 2 ^ s))).
  assert (H4 : 4 ^ s = 2 ^ s * 2 ^ s)
    by (change 4 with (2 * 2); apply Z.pow_mul_l).
  assert (HP : 2 ^ 26 <= 2 ^ s) by (apply Z.pow_le_mono_r; lia).
  assert (HN : 0 <= n * (2 ^ s * 2 ^ s)) by nia.
  pose proof (Z.sqrt_spec _ HN) as Hsq. unfold Z.succ in Hsq.
  pose proof (Z.sqrt_nonneg (n * (2 ^ s * 2 ^ s))) as Ht.
  split; [exact HP|]. split; [exact Ht|].
  split; [lia|]. split; [lia|].
  unfold np_sqrt.
  assert (E : (n <=? 0) = false) by (apply Z.leb_gt; lia).
  rewrite E. fold s. cbv zeta. rewrite H4. reflexivity.
Qed.

Lemma np_sqrt_nonneg (n : Z) : (0 <= np_sqrt n)%Q.
Proof.
  unfold np_sqrt. destruct (n <=? 0); [apply Qle_refl|]. cbv zeta.
  set (N := n * 4 ^ (52 - Z.log2 n / 2)).
  pose proof (Z.sqrt_nonneg N) as Ht.
  unfold Qle. cbn [Qnum Qden].
  destruct (Z.sqrt N <? N - Z.sqrt N * Z.sqrt N); lia.
Qed.

(** On a perfect square the rounded root is the root. *)
Lemma np_sqrt_square (b : Z) :
  0 <= b -> b * b < 2 ^ 53 -> (np_sqrt (b * b) == inject_Z b)%Q.
Proof.
  intros Hb Hlt.
  destruct (Z.eq_dec b 0) as [->|Hb0]; [reflexivity|].
  destruct (np_sqrt_parts (b * b)) as (P & t & HP & Ht & H1 & H2 & ->);
    [nia|exact Hlt|].
  assert (HP0 : 0 < P) by lia.
  assert (Et : t = b * P) by nia.
  assert (E : (t <? b * b * (P * P) - t * t) = false)
    by (apply Z.ltb_ge; nia).
  rewrite E. unfold Qeq, inject_Z. cbn [Qnum Qden].
  rewrite Z2Pos.id by exact HP0. lia.
Qed.

(** Against an integer radius below [2^26], rounding changes nothing. *)
Lemma np_sqrt_le_Z (n z : Z) :
  0 <= n -> n < 2 ^ 53 -> 0 <= z -> z < 2 ^ 26 ->
  (np_sqrt n <= inject_Z z)%Q <-> n <= z * z.
Proof.
  intros Hn Hb Hz Hzb.
  destruct (Z.eq_dec n 0) as [->|Hn0].
  - split; intros _; [nia|]. unfold Qle. simpl. lia.
  - destruct (np_sqrt_parts n) as (P & t & HP & Ht & H1 & H2 & ->);
      [lia|exact Hb|].
    assert (HP0 : 0 < P) by lia.
    unfold Qle, inject_Z. cbn [Qnum Qden].
    rewrite Z2Pos.id by exact HP0. rewrite Z.mul_1_r.
    destruct (t <? n * (P * P) - t * t) eqn:E.
    + apply Z.ltb_lt in E. split; intros H.
      * assert (t < z * P) by lia.
        assert (n * (P * P) < (z * P) * (z * P)) by nia.
        nia.
      * assert (n * (P * P) <= (z * P) * (z * P)) by nia.
        assert (t <= z * P) by nia.
        assert (t <> z * P) by nia.
        lia.
    + apply Z.ltb_ge in E. split; intros H.
      * assert (Hc : n <= z * z \/ z * z + 1 <= n) by lia.
        destruct Hc as [Hc|Hc]; [exact Hc|exfalso].
        assert (z * P * (z * P) + P * P <= n * (P * P)) by nia.
        assert (z * P <= t) by nia.
        assert (t = z * P) by lia.
        assert (z < P) by lia.
        nia.
      * assert (n * (P * P) <= (z * P) * (z * P)) by nia.
        nia.
Qed.

Lemma sqrt_leb_Z (n z : Z) :
  0 <= n -> n < 2 ^ 53 -> 0 <= z -> z < 2 ^ 26 ->
  sqrt_leb n (inject_Z z) = exact_leb n (inject_Z z).
Proof.
  intros Hn Hb Hz Hzb. unfold sqrt_leb.
  assert (E : (n <? 2 ^ 53) = true) by now apply Z.ltb_lt.
  rewrite E.
  pose proof (np_sqrt_le_Z n z Hn Hb Hz Hzb) as H.
  pose proof (exact_leb_Z n z Hz) as H'.
  rewrite <- Qle_bool_iff in H.
  destruct (Qle_bool (np_sqrt n) (inject_Z z)), (exact_leb n (inject_Z z));
    try reflexivity.
  - assert (true = true) as X by reflexivity.
    apply H in X. apply H' in X. discriminate.
  - assert (true = true) as X by reflexivity.
    apply H' in X. apply H in X. discriminate.
Qed.

Lemma sqrt_leb_negative (n : Z) (q : Q) :
  (q < 0)%Q -> sqrt_leb n q = false.
Proof.
  intros Hq. unfold sqrt_leb, exact_leb. destruct (n <? 2 ^ 53).
  - destruct (Qle_bool (np_sqrt n) q) eqn:E; [|reflexivity].
    apply Qle_bool_iff in E. exfalso.
    apply (Qlt_not_le _ _ Hq). eapply Qle_trans; [apply np_sqrt_nonneg|exact E].
  - destruct (Qle_bool 0 q) eqn:E; [|reflexivity].
    apply Qle_bool_iff in E. exfalso. exact (Qlt_not_le _ _ Hq E).
Qed.

Lemma sqrt_leb_zero (q : Q) : sqrt_leb 0 q = Qle_bool 0 q.
Proof. reflexivity. Qed.

(** ** Lists laid out as arrays *)

Lemma length_arange (a b : Z) : length (arange a b) = Z.to_nat (b - a).
Proof. unfold arange. now rewrite length_map, length_seq. Qed.

Lemma nth_arange (a b : Z) (k : nat) (d : Z) :
  (k < Z.to_nat (b - a))%nat -> nth k (arange a b) d = a + Z.of_nat k.
Proof.
  intros Hk. unfold arange.
  rewrite (nth_indep _ d (a + Z.of_nat 0)) by now rewrite length_map, length_seq.
  rewrite (map_nth (fun k => a + Z.of_nat k)), seq_nth by exact Hk.
  reflexivity.
Qed.

Lemma length_outer {A B C : Type} (f : A -> B -> C) col row :
  length (outer f col row) = (length col * length row)%nat.
Proof.
  unfold outer. induction col as [|a col IH]; simpl; [reflexivity|].
  now rewrite length_app, length_map, IH.
Qed.

Lemma nth_outer {A B C : Type} (f : A -> B -> C) col row i j da db dc :
  (i < length col)%nat -> (j < length row)%nat ->
  nth (i * length row + j) (outer f col row) dc
  = f (nth i col da) (nth j row db).
Proof.
  unfold outer. revert i.
  induction col as [|a col IH]; intros i Hi Hj; simpl in *; [lia|].
  destruct i as [|i]; simpl.
  - rewrite app_nth1 by now rewrite length_map.
    rewrite (nth_indep _ dc (f a db)) by now rewrite length_map.
    apply map_nth.
  - rewrite app_nth2 by (rewrite length_map; lia).
    rewrite length_map.
    replace (length row + i * length row + j - length row)%nat
      with (i * length row + j)%nat by lia.
    apply IH; lia.
Qed.

Lemma outer_map_l {A A' B C : Type} (f : A' -> B -> C) (g : A -> A') col row :
  outer f (map g col) row = outer (fun a b => f (g a) b) col row.
Proof. unfold outer. now rewrite flat_map_concat_map, map_map, <- flat_map_concat_map. Qed.

Lemma map_outer {A B C D : Type} (g : C -> D) (f : A -> B -> C) col row :
  map g (outer f col row) = outer (fun a b => g (f a b)) col row.
Proof.
  unfold outer. induction col as [|a col IH]; simpl; [reflexivity|].
  now rewrite map_app, map_map, IH.
Qed.

Lemma array_ext (l1 l2 : list Z) (h w : nat) :
  length l1 = (h * w)%nat -> length l2 = (h * w)%nat ->
  (forall i j, (i < h)%nat -> (j < w)%nat ->
     nth (i * w + j) l1 0 = nth (i * w + j) l2 0) ->
  l1 = l2.
Proof.
  intros H1 H2 H. apply (nth_ext _ _ 0 0); [congruence|].
  intros k Hk. rewrite H1 in Hk.
  destruct w as [|w]; [lia|].
  assert (Hw : S w <> 0%nat) by lia.
  pose proof (Nat.div_mod k (S w) Hw) as Hdm.
  pose proof (Nat.mod_upper_bound k (S w) Hw) as Hm.
  assert (Hd : (k / S w < h)%nat) by (apply Nat.Div0.div_lt_upper_bound; lia).
  replace k with ((k / S w) * S w + k mod S w)%nat at 1 2 by lia.
  apply H; assumption.
Qed.

(** ** The footprint, cell by cell *)

Lemma length_axis (ro : Q) :
  length (arange (- int ro) (int ro + 1)) = side ro.
Proof. rewrite length_arange. unfold side. f_equal. lia. Qed.

Lemma nth_axis (ro : Q) (k : nat) :
  (k < side ro)%nat ->
  nth k (arange (- int ro) (int ro + 1)) 0 = Z.of_nat k - int ro.
Proof.
  intros Hk. rewrite nth_arange; [lia|].
  unfold side in Hk. replace (int ro + 1 - - int ro) with (2 * int ro + 1) by lia.
  exact Hk.
Qed.

Lemma ring_unfold (ri ro : Q) (inv : bool) :
  (ri <= ro)%Q ->
  _ring ri ro inv
  = inr (mk_ndarray [side ro; side ro]
           (outer (fun xi xj =>
                     astype (xorb inv (in_annulus ri ro (xj ^ 2 + xi ^ 2))))
                  (arange (- int ro) (int ro + 1))
                  (arange (- int ro) (int ro + 1)))).
Proof.
  intros Hle. unfold _ring.
  apply Qle_bool_iff in Hle. rewrite Hle. cbn [negb].
  rewrite length_axis. do 2 f_equal.
  destruct inv; rewrite ?map_map, !map_outer; reflexivity.
Qed.

Lemma ring_fails (ri ro : Q) (inv : bool) :
  (ro < ri)%Q ->
  _ring ri ro inv = inl (AssertionError "must have r_outer >= r_inner").
Proof.
  intros Hlt. unfold _ring.
  destruct (Qle_bool ri ro) eqn:E; [|reflexivity].
  apply Qle_bool_iff in E. exfalso. apply (Qlt_not_le _ _ Hlt E).
Qed.

Lemma ring_item2 (ri ro : Q) (inv : bool) (fp : ndarray) (i j : nat) :
  _ring ri ro inv = inr fp ->
  (i < side ro)%nat -> (j < side ro)%nat ->
  item2 fp i j = astype (xorb inv (in_annulus ri ro (radicand ro i j))).
Proof.
  intros Hfp Hi Hj.
  destruct (Qlt_le_dec ro ri) as [Hlt|Hle].
  - rewrite (ring_fails _ _ inv Hlt) in Hfp. discriminate.
  - rewrite (ring_unfold _ _ inv Hle) in Hfp. injection Hfp as <-.
    unfold item2; cbn [shape data].
    rewrite <- (length_axis ro) at 1.
    rewrite (nth_outer _ _ _ i j 0 0) by now rewrite length_axis.
    rewrite !nth_axis by assumption. reflexivity.
Qed.

Lemma ring_shape (ri ro : Q) (inv : bool) (fp : ndarray) :
  _ring ri ro inv = inr fp ->
  shape fp = [side ro; side ro] /\
  length (data fp) = (side ro * side ro)%nat.
Proof.
  intros Hfp.
  destruct (Qlt_le_dec ro ri) as [Hlt|Hle].
  - rewrite (ring_fails _ _ inv Hlt) in Hfp. discriminate.
  - rewrite (ring_unfold _ _ inv Hle) in Hfp. injection Hfp as <-.
    cbn [shape data]. split; [reflexivity|].
    now rewrite length_outer, length_axis.
Qed.

Lemma radicand_nonneg (ro : Q) (i j : nat) : 0 <= radicand ro i j.
Proof. unfold radicand. nia. Qed.

Lemma int_nonneg (q : Q) : (0 <= q)%Q -> 0 <= int q.
Proof.
  intros Hq. unfold int. apply Z.quot_pos; [|lia].
  unfold Qle in Hq. simpl in Hq. lia.
Qed.

Lemma int_floor (q : Q) : (0 <= q)%Q -> int q = Qfloor q.
Proof.
  intros Hq. unfold int. destruct q as [n d]. simpl.
  apply Z.quot_div_nonneg; [|lia].
  unfold Qle in Hq. simpl in Hq. lia.
Qed.

Lemma int_inject_Z (n : Z) : int (inject_Z n) = n.
Proof. unfold int. simpl. apply Z.quot_1_r. Qed.

Lemma cell_at_ring (ri ro : Q) (inv : bool) (fp : ndarray) (a b : Z) :
  _ring ri ro inv = inr fp ->
  - int ro <= a <= int ro -> - int ro <= b <= int ro ->
  cell_at fp ro a b = astype (xorb inv (in_annulus ri ro (a * a + b * b))).
Proof.
  intros Hfp Ha Hb. unfold cell_at.
  rewrite (ring_item2 ri ro inv fp) by (try assumption; unfold side; lia).
  unfold radicand. rewrite !Z2Nat.id by lia.
  do 3 f_equal. ring.
Qed.

Lemma astype_cases (b : bool) : astype b = 1 \/ astype b = 0.
Proof. destruct b; [left|right]; reflexivity. Qed.

Lemma astype_1 (b : bool) : astype b = 1 <-> b = true.
Proof. destruct b; simpl; split; intros; try reflexivity; discriminate. Qed.

(** Below [2^53] the test of line 32 compares the rounded root with the
    radii. *)
Lemma in_annulus_rounded (ri ro : Q) (n : Z) :
  n < 2 ^ 53 ->
  in_annulus ri ro n = true <-> (ri < np_sqrt n /\ np_sqrt n <= ro)%Q.
Proof.
  intros Hb. unfold in_annulus, sqrt_gtb, sqrt_leb.
  assert (E : (n <? 2 ^ 53) = true) by now apply Z.ltb_lt.
  rewrite E, andb_true_iff, negb_true_iff, Qle_bool_iff.
  split; intros [H1 H2]; split; try assumption.
  - apply Qnot_le_lt. intros H. apply Qle_bool_iff in H. congruence.
  - destruct (Qle_bool (np_sqrt n) ri) eqn:E'; [|reflexivity].
    apply Qle_bool_iff in E'. exfalso. exact (Qlt_not_le _ _ H1 E').
Qed.

Lemma int_below (ro : Q) (k : Z) :
  (0 <= ro)%Q -> (ro < inject_Z k)%Q -> int ro < k.
Proof.
  intros H0 Hlt. rewrite (int_floor ro H0).
  rewrite Zlt_Qlt. eapply Qle_lt_trans; [apply Qfloor_le|exact Hlt].
Qed.

Lemma radicand_below (r a b : Z) :
  0 <= r -> r < 2 ^ 26 -> - r <= a <= r -> - r <= b <= r ->
  0 <= a * a + b * b < 2 ^ 53.
Proof.
  change (2 ^ 26) with 67108864. change (2 ^ 53) with 9007199254740992.
  intros Hr Hb Ha Hb'.
  assert (a * a <= 67108863 * 67108863) by nia.
  assert (b * b <= 67108863 * 67108863) by nia.
  nia.
Qed.

(** With integer radii below [2^26] the test is the one on squares. *)
Lemma in_annulus_integer (zi zo n : Z) :
  0 <= zi -> zi <= zo -> zo < 2 ^ 26 -> 0 <= n -> n < 2 ^ 53 ->
  in_annulus (inject_Z zi) (inject_Z zo) n = true
  <-> zi * zi < n /\ n <= zo * zo.
Proof.
  intros Hi Hio Ho Hn Hb. unfold in_annulus, sqrt_gtb.
  rewrite !sqrt_leb_Z by lia.
  rewrite andb_true_iff, negb_true_iff, (exact_leb_Z n zo) by lia.
  pose proof (exact_leb_Z n zi Hi) as H.
  destruct (exact_leb n (inject_Z zi)).
  - assert (n <= zi * zi) by now apply H. split; [intros [? _]; discriminate|lia].
  - assert (~ n <= zi * zi) by (intros X; apply H in X; discriminate).
    split; [intros [_ ?]|intros [_ ?]; split; [reflexivity|]]; lia.
Qed.

Lemma in_annulus_integer_R (zi zo n : Z) :
  0 <= zi -> zi <= zo -> zo < 2 ^ 26 -> 0 <= n -> n < 2 ^ 53 ->
  in_annulus (inject_Z zi) (inject_Z zo) n = true
  <-> (IZR zi < sqrt (IZR n) /\ sqrt (IZR n) <= IZR zo)%R.
Proof.
  intros Hi Hio Ho Hn Hb. unfold in_annulus, sqrt_gtb.
  rewrite !sqrt_leb_Z by lia.
  rewrite andb_true_iff, negb_true_iff.
  rewrite (exact_gtb_spec n _ Hn), (exact_leb_spec n _ Hn).
  now rewrite !Q2R_inject_Z.
Qed.

(** The cell straight above the centre, on the outer circle of a ring
    with integer radii. *)
Lemma in_annulus_outer_cell (a b : Z) :
  0 <= a -> a < b ->
  in_annulus (inject_Z a) (inject_Z b) (0 * 0 + b * b) = true.
Proof.
  intros Ha Hab. cbn [Z.mul Z.add]. unfold in_annulus, sqrt_gtb, sqrt_leb.
  destruct (b * b <? 2 ^ 53) eqn:E.
  - apply Z.ltb_lt in E.
    pose proof (np_sqrt_square b ltac:(lia) E) as Hsq.
    apply andb_true_iff. split.
    + apply negb_true_iff.
      destruct (Qle_bool (np_sqrt (b * b)) (inject_Z a)) eqn:E';
        [|reflexivity].
      apply Qle_bool_iff in E'. rewrite Hsq in E'.
      rewrite <- Zle_Qle in E'. lia.
    + apply Qle_bool_iff. rewrite Hsq. apply Qle_refl.
  - unfold exact_leb. apply andb_true_iff. split.
    + apply negb_true_iff. apply andb_false_iff. right.
      destruct (Qle_bool (inject_Z (b * b)) (inject_Z a * inject_Z a)) eqn:E';
        [|reflexivity].
      apply Qle_bool_iff in E'. unfold Qle in E'. simpl in E'. nia.
    + apply andb_true_iff. split; apply Qle_bool_iff; unfold Qle; simpl; nia.
Qed.

Lemma centre_not_in_annulus (ri ro : Q) :
  (0 <= ri)%Q -> in_annulus ri ro 0 = false.
Proof.
  intros H0. unfold in_annulus, sqrt_gtb. rewrite sqrt_leb_zero.
  apply Qle_bool_iff in H0. now rewrite H0.
Qed.

(** ** Claims about [_ring] *)

(** C2, refuted: with [r_inner = 0] and [r_outer] the double
    [np.sqrt(13) = 8118979690322419 / 2^51], which lies below the square
    root of 13, the cell at offset [(2, 3)] holds 1 although its Euclidean
    distance exceeds [r_outer]: line 32 compares the rounded distance. *)
Lemma ring_compares_rounded_distance : ~ annulus_by_exact_distance.
Proof.
  intros H.
  destruct (H 0%Q (8118979690322419 # 2251799813685248)%Q 2 3)
    as (fp & Hfp & Hiff).
  - discriminate.
  - discriminate.
  - vm_compute. split; discriminate.
  - vm_compute. split; discriminate.
  - assert (Hc : cell_at fp (8118979690322419 # 2251799813685248) 2 3 = 1).
    { rewrite (cell_at_ring 0 (8118979690322419 # 2251799813685248)
                 false fp 2 3 Hfp);
        [vm_compute; reflexivity| |]; vm_compute; split; discriminate. }
    apply Hiff in Hc. destruct Hc as [_ Hle].
    apply (exact_leb_spec 13 (8118979690322419 # 2251799813685248)) in Hle;
      [|lia].
    vm_compute in Hle. discriminate.
Qed.

(** C2, amended.  For radii [0 <= r_inner <= r_outer] and
    [invert = False], the cell at offset [(a, b)] from the centre holds 0
    or 1 and the centre cell holds 0.  With [r_outer < 2^26] the cell holds
    1 exactly when the computed distance, the double [np.sqrt(a^2 + b^2)]
    nearest to the Euclidean distance, is above [r_inner] and at most
    [r_outer]: a computed distance equal to [r_inner] gives 0, one equal to
    [r_outer] gives 1 (the ring not being degenerate).  With integer radii
    below [2^26] this is the condition on the Euclidean distance [d]
    itself: 1 exactly when [r_inner < d <= r_outer], 0 at [d = r_inner]
    and 1 at [d = r_outer]. *)
Theorem ring_cell_annulus (ri ro : Q) (a b : Z) :
  (0 <= ri)%Q -> (ri <= ro)%Q ->
  - int ro <= a <= int ro -> - int ro <= b <= int ro ->
  exists fp, _ring ri ro false = inr fp /\
    (cell_at fp ro a b = 1 \/ cell_at fp ro a b = 0) /\
    cell_at fp ro 0 0 = 0 /\
    ((ro < inject_Z (2 ^ 26))%Q ->
     (cell_at fp ro a b = 1
      <-> (ri < np_sqrt (a * a + b * b)
           /\ np_sqrt (a * a + b * b) <= ro)%Q) /\
     ((np_sqrt (a * a + b * b) == ri)%Q -> cell_at fp ro a b = 0) /\
     ((np_sqrt (a * a + b * b) == ro)%Q -> (ri < ro)%Q ->
      cell_at fp ro a b = 1)) /\
    (forall zi zo : Z,
        ri = inject_Z zi -> ro = inject_Z zo -> zo < 2 ^ 26 ->
        (cell_at fp ro a b = 1
         <-> (IZR zi < sqrt (IZR (a * a + b * b))
              /\ sqrt (IZR (a * a + b * b)) <= IZR zo)%R) /\
        (sqrt (IZR (a * a + b * b)) = IZR zi -> cell_at fp ro a b = 0) /\
        (sqrt (IZR (a * a + b * b)) = IZR zo -> zi < zo ->
         cell_at fp ro a b = 1)).
Proof.
  intros H0 Hle Ha Hb.
  assert (Hro : (0 <= ro)%Q) by (apply (Qle_trans _ ri); assumption).
  pose proof (int_nonneg ro Hro) as Hint.
  destruct (_ring ri ro false) as [e|fp] eqn:Hfp;
    [rewrite ring_unfold in Hfp by assumption; discriminate|].
  exists fp. split; [reflexivity|].
  rewrite (cell_at_ring ri ro false fp 0 0 Hfp) by lia.
  rewrite (cell_at_ring ri ro false fp a b Hfp Ha Hb). cbn [xorb].
  split; [apply astype_cases|].
  split; [cbn [Z.mul Z.add]; now rewrite (centre_not_in_annulus ri ro H0)|].
  split.
  - intros Hbound.
    pose proof (int_below ro _ Hro Hbound) as Hlt.
    destruct (radicand_below (int ro) a b Hint Hlt Ha Hb) as [_ Hn].
    pose proof (in_annulus_rounded ri ro _ Hn) as HQ.
    split; [rewrite astype_1; exact HQ|]. split.
    + intros Hd.
      destruct (in_annulus ri ro (a * a + b * b)); [|reflexivity].
      exfalso. assert (H : (ri < np_sqrt (a * a + b * b))%Q)
        by (apply HQ; reflexivity).
      rewrite Hd in H. exact (Qlt_irrefl _ H).
    + intros Hd Hlt'. apply astype_1. apply HQ. rewrite Hd. split.
      * exact Hlt'.
      * apply Qle_refl.
  - intros zi zo -> -> Hzo.
    rewrite int_inject_Z in *.
    assert (Hzi : 0 <= zi) by (unfold Qle in H0; simpl in H0; lia).
    assert (Hio : zi <= zo) by (rewrite Zle_Qle; exact Hle).
    destruct (radicand_below zo a b Hint Hzo Ha Hb) as [Hn0 Hn].
    pose proof (in_annulus_integer_R zi zo _ Hzi Hio Hzo Hn0 Hn) as HR.
    split; [rewrite astype_1; exact HR|]. split.
    + intros Hd.
      destruct (in_annulus (inject_Z zi) (inject_Z zo) (a * a + b * b));
        [|reflexivity].
      exfalso. assert (H : (IZR zi < sqrt (IZR (a * a + b * b)))%R)
        by (apply HR; reflexivity).
      rewrite Hd in H. exact (Rlt_irrefl _ H).
    + intros Hd Hlt'. apply astype_1. apply HR. rewrite Hd. split.
      * apply IZR_lt. exact Hlt'.
      * apply Rle_refl.
Qed.

Lemma ring_cell_annulus_witness :
  exists fp, _ring 2 5 false = inr fp /\ cell_at fp 5 0 0 = 0.
Proof.
  destruct (ring_cell_annulus 2 5 3 4) as (fp & Hfp & _ & Hc & _).
  - discriminate.
  - discriminate.
  - vm_compute. split; discriminate.
  - vm_compute. split; discriminate.
  - exists fp. split; assumption.
Defined.

(** The boundary convention on the example of the specification: with
    [r_inner = 2] and [r_outer = 5], the cells at distance exactly 2 hold 0
    and the cells at distance exactly 5 (offsets [(0, 5)] and [(3, 4)])
    hold 1. *)
Example ring_2_5_boundary :
  exists fp, _ring 2 5 false = inr fp /\
    cell_at fp 5 0 2 = 0 /\ cell_at fp 5 2 0 = 0 /\
    cell_at fp 5 0 5 = 1 /\ cell_at fp 5 3 4 = 1 /\ cell_at fp 5 (-4) 3 = 1 /\
    cell_at fp 5 0 3 = 1 /\ cell_at fp 5 4 4 = 0.
Proof. eexists. split; [reflexivity|]. vm_compute. tauto. Qed.

(** C3. For radii [0 <= r_inner <= r_outer], fractional or not, the
    footprint is a square of odd side [2 * floor r_outer + 1]: the axis is
    sized with [int r_outer], which is [floor r_outer] here.  Membership of
    the annulus is tested with the radii as given, not truncated: with
    [r_outer < 2^26], the cell at offset [(a, b)] is an annulus cell (1, or
    0 when inverted) exactly when the computed distance
    [np.sqrt(a^2 + b^2)] is above [r_inner] and at most [r_outer]. *)
Theorem ring_side_truncated (ri ro : Q) (inv : bool) :
  (0 <= ri)%Q -> (ri <= ro)%Q ->
  exists fp, _ring ri ro inv = inr fp /\
    int ro = Qfloor ro /\
    shape fp = [Z.to_nat (2 * Qfloor ro + 1); Z.to_nat (2 * Qfloor ro + 1)] /\
    length (data fp)
    = (Z.to_nat (2 * Qfloor ro + 1) * Z.to_nat (2 * Qfloor ro + 1))%nat /\
    0 < 2 * Qfloor ro + 1 /\ Z.odd (2 * Qfloor ro + 1) = true /\
    forall a b : Z,
      - Qfloor ro <= a <= Qfloor ro -> - Qfloor ro <= b <= Qfloor ro ->
      (ro < inject_Z (2 ^ 26))%Q ->
      (cell_at fp ro a b = astype (negb inv)
       <-> (ri < np_sqrt (a * a + b * b)
            /\ np_sqrt (a * a + b * b) <= ro)%Q).
Proof.
  intros H0 Hle.
  assert (Hro : (0 <= ro)%Q) by (eapply Qle_trans; eassumption).
  destruct (_ring ri ro inv) as [e|fp] eqn:Hfp;
    [rewrite ring_unfold in Hfp by assumption; discriminate|].
  pose proof (int_floor ro Hro) as Hfl.
  pose proof (int_nonneg ro Hro) as Hpos.
  exists fp. split; [reflexivity|].
  destruct (ring_shape _ _ _ _ Hfp) as [Hs Hl].
  unfold side in Hs, Hl. rewrite Hfl in Hs, Hl.
  split; [exact Hfl|]. split; [exact Hs|]. split; [exact Hl|].
  split; [lia|].
  split; [rewrite Z.add_comm, Z.odd_add_mul_2; reflexivity|].
  intros a b Ha Hb Hbound. rewrite <- Hfl in Ha, Hb.
  pose proof (int_below ro _ Hro Hbound) as Hlt.
  destruct (radicand_below (int ro) a b Hpos Hlt Ha Hb) as [_ Hn].
  rewrite (cell_at_ring ri ro inv _ a b Hfp Ha Hb).
  rewrite <- (in_annulus_rounded ri ro _ Hn).
  destruct inv, (in_annulus ri ro (a * a + b * b)); simpl;
    split; intros; try reflexivity; discriminate.
Qed.

Lemma ring_side_truncated_witness :
  exists fp, _ring (1 # 2) (5 # 2) false = inr fp /\ shape fp = [5; 5]%nat.
Proof.
  destruct (ring_side_truncated (1 # 2) (5 # 2) false)
    as (fp & Hfp & _ & Hs & _).
  - discriminate.
  - discriminate.
  - exists fp. split; [exact Hfp | exact Hs].
Defined.

(** Sizing truncates, membership does not: [r_outer = 3/2] allocates the
    same 3 x 3 square as [r_outer = 1] but also selects its corners, at
    distance [sqrt 2 <= 3/2]. *)
Example ring_fractional_outer :
  _ring 0 (3 # 2) false = inr (mk_ndarray [3; 3]%nat [1; 1; 1; 1; 0; 1; 1; 1; 1])
  /\ _ring 0 1 false = inr (mk_ndarray [3; 3]%nat [0; 1; 0; 1; 0; 1; 0; 1; 0]).
Proof. split; reflexivity. Qed.

Lemma median_filter_no_assertion (input fp : ndarray) m cval msg :
  median_filter input fp m cval <> inl (AssertionError msg).
Proof.
  unfold median_filter.
  repeat match goal with
         | |- context [if ?c then _ else _] => destruct c
         | |- context [match ?l with [] => _ | _ :: _ => _ end] => destruct l
         end; discriminate.
Qed.

(** C4. [_ring] raises its assertion error exactly when
    [r_outer < r_inner], and raises nothing else; [rmedian] hands that error
    on, whatever the data, so that no filtering takes place.  In particular
    [rmedian] with [r_inner = 5] and [r_outer = 2] raises it. *)
Theorem invalid_radius_iff (ri ro : Q) (inv : bool) (image : ndarray) :
  (_ring ri ro inv = inl (AssertionError "must have r_outer >= r_inner")
   <-> (ro < ri)%Q) /\
  ((exists e, _ring ri ro inv = inl e) <-> (ro < ri)%Q) /\
  (rmedian image ri ro inv
   = inl (AssertionError "must have r_outer >= r_inner")
   <-> (ro < ri)%Q) /\
  rmedian image 5 2 inv = inl (AssertionError "must have r_outer >= r_inner").
Proof.
  assert (Hinv : forall e, _ring ri ro inv = inl e -> (ro < ri)%Q).
  { intros e He. destruct (Qlt_le_dec ro ri) as [Hlt|Hle]; [exact Hlt|].
    rewrite ring_unfold in He by exact Hle. discriminate. }
  split; [|split; [|split]].
  - split; [apply Hinv | apply ring_fails].
  - split; [intros [e He]; exact (Hinv e He)|].
    intros Hlt. eexists. apply ring_fails. exact Hlt.
  - unfold rmedian. split.
    + destruct (_ring ri ro inv) as [e|fp] eqn:E.
      * intros _. exact (Hinv e eq_refl).
      * intros H. exfalso. exact (median_filter_no_assertion _ _ _ _ _ H).
    + intros Hlt. now rewrite ring_fails.
  - unfold rmedian. rewrite ring_fails; [reflexivity|reflexivity].
Qed.

(** ** Symmetries of the footprint *)

Lemma radicand_flip (ro : Q) (i j : nat) :
  (i < side ro)%nat -> (j < side ro)%nat ->
  radicand ro (side ro - 1 - i) (side ro - 1 - j) = radicand ro i j.
Proof.
  unfold side, radicand. intros Hi Hj.
  rewrite !Nat2Z.inj_sub, !Z2Nat.id by lia.
  change (Z.of_nat 1) with 1. nia.
Qed.

Lemma radicand_swap (ro : Q) (i j : nat) : radicand ro j i = radicand ro i j.
Proof. unfold radicand. ring. Qed.

Lemma item2_nth (a : ndarray) (h w i j : nat) :
  shape a = [h; w] -> item2 a i j = nth (i * w + j) (data a) 0.
Proof. intros Hs. unfold item2. now rewrite Hs. Qed.

(** C6. Whenever [r_outer >= r_inner], the footprint is left unchanged by
    a rotation of 180 degrees and by transposition; cell by cell,
    [fp[i, j] = fp[n-1-i, n-1-j] = fp[j, i]] on a footprint of side [n]. *)
Theorem ring_symmetric (ri ro : Q) (inv : bool) :
  (ri <= ro)%Q ->
  exists fp, _ring ri ro inv = inr fp /\
    rot180 fp = fp /\ transpose fp = fp /\
    forall i j, (i < side ro)%nat -> (j < side ro)%nat ->
      item2 fp (side ro - 1 - i) (side ro - 1 - j) = item2 fp i j /\
      item2 fp j i = item2 fp i j.
Proof.
  intros Hle.
  destruct (_ring ri ro inv) as [e|fp] eqn:Hfp;
    [rewrite ring_unfold in Hfp by assumption; discriminate|].
  exists fp. split; [reflexivity|].
  destruct (ring_shape _ _ _ _ Hfp) as [Hs Hl].
  assert (Hpt : forall i j, (i < side ro)%nat -> (j < side ro)%nat ->
            item2 fp (side ro - 1 - i) (side ro - 1 - j) = item2 fp i j /\
            item2 fp j i = item2 fp i j).
  { intros i j Hi Hj.
    rewrite !(ring_item2 ri ro inv fp) by (try assumption; lia).
    now rewrite radicand_flip, radicand_swap. }
  split; [|split; [|exact Hpt]].
  - unfold rot180. destruct fp as [s d]. cbn [shape data] in *.
    f_equal.
    apply (array_ext _ _ (side ro) (side ro)); [now rewrite length_rev|exact Hl|].
    intros i j Hi Hj.
    rewrite rev_nth by (rewrite Hl; nia).
    rewrite Hl.
    replace (side ro * side ro - S (i * side ro + j))%nat
      with ((side ro - 1 - i) * side ro + (side ro - 1 - j))%nat by nia.
    pose proof (Hpt i j Hi Hj) as [H _].
    unfold item2 in H. cbn [shape data] in H. rewrite Hs in H. exact H.
  - unfold transpose. rewrite Hs.
    destruct fp as [s d]. cbn [shape data] in *. subst s. f_equal.
    apply (array_ext _ _ (side ro) (side ro));
      [now rewrite length_outer, !length_seq|exact Hl|].
    intros i j Hi Hj.
    rewrite <- (length_seq (side ro) 0) at 1.
    rewrite (nth_outer _ _ _ i j 0%nat 0%nat) by now rewrite length_seq.
    rewrite !seq_nth by assumption. cbn [Nat.add].
    pose proof (Hpt i j Hi Hj) as [_ H]. rewrite H.
    reflexivity.
Qed.

Lemma ring_symmetric_witness :
  exists fp, _ring 2 5 false = inr fp /\ rot180 fp = fp /\ transpose fp = fp.
Proof.
  destruct (ring_symmetric 2 5 false) as (fp & Hfp & Hr & Ht & _).
  - discriminate.
  - exists fp. repeat split; assumption.
Defined.

(** ** Degenerate and non-degenerate rings *)

Lemma Forall_outer {A B C : Type} (P : C -> Prop) (f : A -> B -> C) col row :
  (forall a b, P (f a b)) -> Forall P (outer f col row).
Proof.
  intros H. unfold outer. apply Forall_forall. intros c Hc.
  apply in_flat_map in Hc as (a & _ & Hc).
  apply in_map_iff in Hc as (b & <- & _). apply H.
Qed.

Lemma count_nonzero_zeros (a : ndarray) :
  Forall (fun v => v = 0) (data a) -> count_nonzero a = 0%nat.
Proof.
  unfold count_nonzero. induction 1 as [|v l Hv _ IH]; [reflexivity|].
  subst v. simpl. exact IH.
Qed.

Lemma count_nonzero_ones (a : ndarray) :
  Forall (fun v => v = 1) (data a) -> count_nonzero a = length (data a).
Proof.
  unfold count_nonzero. induction 1 as [|v l Hv _ IH]; [reflexivity|].
  subst v. simpl. now rewrite IH.
Qed.

Lemma count_nonzero_pos (a : ndarray) (k : nat) :
  nth k (data a) 0 <> 0 -> (0 < count_nonzero a)%nat.
Proof.
  intros Hk. unfold count_nonzero.
  assert (Hlt : (k < length (data a))%nat).
  { destruct (Nat.lt_ge_cases k (length (data a))) as [H|H]; [exact H|].
    rewrite nth_overflow in Hk by exact H. congruence. }
  assert (Hin : In (nth k (data a) 0)
                  (filter (fun v => negb (v =? 0)) (data a))).
  { apply filter_In. split; [now apply nth_In|].
    apply negb_true_iff. now apply Z.eqb_neq. }
  destruct (filter _ (data a)); [contradiction|simpl; lia].
Qed.

Lemma in_annulus_degenerate (r : Q) (n : Z) : in_annulus r r n = false.
Proof.
  unfold in_annulus. rewrite sqrt_gtb_negb. apply andb_negb_l.
Qed.

(** C7. For integer radii [0 <= a <= b], [_ring] returns a footprint, both
    plain and inverted.  When [a < b] the plain footprint has at least one
    1-cell (the cell at offset [(0, b)] is one).  When [a = b] the plain
    footprint has no 1-cell and the inverted one has only 1-cells: the
    degenerate ring is built, not rejected. *)
Theorem ring_integer_population (a b : Z) :
  0 <= a -> a <= b ->
  exists fp fp',
    _ring (inject_Z a) (inject_Z b) false = inr fp /\
    _ring (inject_Z a) (inject_Z b) true = inr fp' /\
    (a < b ->
     cell_at fp (inject_Z b) 0 b = 1 /\ (0 < count_nonzero fp)%nat) /\
    (a = b ->
     Forall (fun v => v = 0) (data fp) /\ count_nonzero fp = 0%nat /\
     Forall (fun v => v = 1) (data fp') /\
     count_nonzero fp' = length (data fp')).
Proof.
  intros H0 Hab.
  assert (Hle : (inject_Z a <= inject_Z b)%Q) by (rewrite <- Zle_Qle; exact Hab).
  pose proof (ring_unfold (inject_Z a) (inject_Z b) false Hle) as Hfp.
  pose proof (ring_unfold (inject_Z a) (inject_Z b) true Hle) as Hfp'.
  destruct (_ring (inject_Z a) (inject_Z b) false) as [e|fp] eqn:E;
    [discriminate|].
  destruct (_ring (inject_Z a) (inject_Z b) true) as [e|fp'] eqn:E';
    [discriminate|].
  exists fp, fp'. split; [reflexivity|]. split; [reflexivity|].
  split.
  - intros Hlt.
    assert (Hc : cell_at fp (inject_Z b) 0 b = 1).
    { rewrite (cell_at_ring (inject_Z a) (inject_Z b) false fp 0 b E)
        by (rewrite int_inject_Z; lia).
      cbn [xorb]. apply astype_1.
      now apply in_annulus_outer_cell. }
    split; [exact Hc|].
    unfold cell_at in Hc.
    destruct (ring_shape _ _ _ _ E) as [Hs _].
    rewrite (item2_nth _ _ _ _ _ Hs) in Hc.
    eapply count_nonzero_pos. rewrite Hc. discriminate.
  - intros ->.
    injection Hfp as ->. injection Hfp' as ->. cbn [data].
    assert (Z0 : Forall (fun v => v = 0)
                   (data (mk_ndarray [side (inject_Z b); side (inject_Z b)]
                      (outer (fun xi xj => astype (xorb false
                         (in_annulus (inject_Z b) (inject_Z b) (xj ^ 2 + xi ^ 2))))
                       (arange (- int (inject_Z b)) (int (inject_Z b) + 1))
                       (arange (- int (inject_Z b)) (int (inject_Z b) + 1)))))).
    { apply Forall_outer. intros. now rewrite in_annulus_degenerate. }
    assert (Z1 : Forall (fun v => v = 1)
                   (data (mk_ndarray [side (inject_Z b); side (inject_Z b)]
                      (outer (fun xi xj => astype (xorb true
                         (in_annulus (inject_Z b) (inject_Z b) (xj ^ 2 + xi ^ 2))))
                       (arange (- int (inject_Z b)) (int (inject_Z b) + 1))
                       (arange (- int (inject_Z b)) (int (inject_Z b) + 1)))))).
    { apply Forall_outer. intros. now rewrite in_annulus_degenerate. }
    split; [exact Z0|]. split; [exact (count_nonzero_zeros _ Z0)|].
    split; [exact Z1|]. exact (count_nonzero_ones _ Z1).
Qed.

Lemma ring_integer_population_witness :
  exists fp, _ring 2 5 false = inr fp /\ (0 < count_nonzero fp)%nat.
Proof.
  destruct (ring_integer_population 2 5) as (fp & fp' & Hfp & _ & Hpos & _).
  - lia.
  - lia.
  - exists fp. split; [exact Hfp|]. apply Hpos. lia.
Defined.

(** The degenerate ring on an example: [r_inner = r_outer = 1]. *)
Example ring_1_1 :
  _ring 1 1 false = inr (mk_ndarray [3; 3]%nat [0; 0; 0; 0; 0; 0; 0; 0; 0])
  /\ _ring 1 1 true = inr (mk_ndarray [3; 3]%nat [1; 1; 1; 1; 1; 1; 1; 1; 1]).
Proof. split; reflexivity. Qed.

(** ** Negative radii *)

(** C9, refuted: [_ring(-1, 2)] raises nothing and returns the filled disc
    of radius 2. *)
Lemma negative_radius_not_rejected : ~ negative_radius_rejected.
Proof.
  intros H. destruct (H (-1 # 1)%Q 2%Q false) as [e He].
  - left. reflexivity.
  - vm_compute in He. discriminate.
Qed.

Example ring_neg1_2 :
  _ring (-1 # 1) 2 false
  = inr (mk_ndarray [5; 5]%nat
           [0; 0; 1; 0; 0;
            0; 1; 1; 1; 0;
            1; 1; 1; 1; 1;
            0; 1; 1; 1; 0;
            0; 0; 1; 0; 0]).
Proof. reflexivity. Qed.

(** C9, amended.  The only contract [_ring] checks is
    [r_outer >= r_inner].  A negative [r_inner] with [r_outer >= r_inner]
    raises nothing: the footprint has side [2 * int r_outer + 1] (empty
    when [r_outer <= -1]) and its cells are decided by the outer test
    alone, the centre included: the computed distance
    [np.sqrt(a^2 + b^2)] is at most [r_outer] ([sqrt_leb]). *)
Theorem negative_inner_radius_accepted (ri ro : Q) (inv : bool) :
  (ri < 0)%Q -> (ri <= ro)%Q ->
  exists fp, _ring ri ro inv = inr fp /\
    shape fp = [Z.to_nat (2 * int ro + 1); Z.to_nat (2 * int ro + 1)] /\
    ((ro <= -1 # 1)%Q -> data fp = []) /\
    forall a b : Z, - int ro <= a <= int ro -> - int ro <= b <= int ro ->
      cell_at fp ro a b = astype (xorb inv (sqrt_leb (a * a + b * b) ro)).
Proof.
  intros Hneg Hle.
  destruct (_ring ri ro inv) as [e|fp] eqn:Hfp;
    [rewrite ring_unfold in Hfp by assumption; discriminate|].
  exists fp. split; [reflexivity|].
  destruct (ring_shape _ _ _ _ Hfp) as [Hs Hl].
  split; [exact Hs|]. split.
  - intros Hro.
    assert (Hside : side ro = 0%nat).
    { unfold side, int. destruct ro as [n d].
      unfold Qle in Hro. cbn [Qnum Qden] in *.
      assert (Hq : Z.quot n (Z.pos d) <= -1).
      { rewrite <- (Z.quot_opp_opp n (Z.pos d)) by lia.
        rewrite Z.quot_opp_r by lia.
        assert (1 <= Z.quot (- n) (Z.pos d)); [|lia].
        apply Z.quot_le_lower_bound; lia. }
      lia. }
    rewrite Hside in Hl. destruct (data fp); [reflexivity|discriminate].
  - intros a b Ha Hb.
    rewrite (cell_at_ring ri ro inv fp a b Hfp Ha Hb).
    unfold in_annulus, sqrt_gtb.
    now rewrite (sqrt_leb_negative _ ri Hneg).
Qed.

Lemma negative_inner_radius_accepted_witness :
  exists fp, _ring (-1 # 1) 2 false = inr fp /\ cell_at fp 2 0 0 = 1.
Proof.
  destruct (negative_inner_radius_accepted (-1 # 1) 2 false)
    as (fp & Hfp & _ & _ & Hc).
  - reflexivity.
  - discriminate.
  - exists fp. split; [exact Hfp|].
    rewrite (Hc 0 0); [reflexivity| |]; vm_compute; split; discriminate.
Defined.

(** ** Rank selection *)

Lemma insert_perm (x : Z) (l : list Z) : Permutation (x :: l) (insert x l).
Proof.
  induction l as [|y t IH]; simpl; [reflexivity|].
  destruct (x <=? y); [reflexivity|].
  rewrite perm_swap. now apply perm_skip.
Qed.

Lemma sort_perm (l : list Z) : Permutation l (sort l).
Proof.
  induction l as [|x t IH]; simpl; [constructor|].
  rewrite <- insert_perm. now apply perm_skip.
Qed.

Lemma length_sort (l : list Z) : length (sort l) = length l.
Proof. symmetry. apply Permutation_length, sort_perm. Qed.

Lemma insert_sorted (x : Z) (l : list Z) :
  StronglySorted Z.le l -> StronglySorted Z.le (insert x l).
Proof.
  induction 1 as [|y t Ht IH Hy]; simpl.
  - repeat constructor.
  - destruct (x <=? y) eqn:E.
    + apply Z.leb_le in E. constructor; [now constructor|].
      constructor; [exact E|].
      eapply Forall_impl; [|exact Hy]. intros; lia.
    + apply Z.leb_gt in E. constructor; [exact IH|].
      apply (Permutation_Forall (insert_perm x t)).
      constructor; [lia|exact Hy].
Qed.

Lemma sort_sorted (l : list Z) : StronglySorted Z.le (sort l).
Proof.
  induction l as [|x t IH]; simpl; [constructor|now apply insert_sorted].
Qed.

Lemma sorted_nth_le (l : list Z) (i j : nat) :
  StronglySorted Z.le l -> (i <= j)%nat -> (j < length l)%nat ->
  nth i l 0 <= nth j l 0.
Proof.
  intros Hs. revert i j.
  induction Hs as [|x t Ht IH Hx]; intros i j Hij Hj; simpl in Hj; [lia|].
  destruct i as [|i], j as [|j]; simpl; try lia.
  - rewrite Forall_forall in Hx. apply Hx, nth_In. lia.
  - apply IH; lia.
Qed.

Lemma select_In (rank : nat) (l : list Z) :
  (rank < length l)%nat -> In (select rank l) l.
Proof.
  intros H. unfold select.
  apply (Permutation_in _ (Permutation_sym (sort_perm l))).
  apply nth_In. now rewrite length_sort.
Qed.

Lemma count_perm (p : Z -> bool) (l l' : list Z) :
  Permutation l l' -> count p l = count p l'.
Proof.
  unfold count. induction 1 as [|x l l' _ IH|x y l|l l' l'' _ IH1 _ IH2]; simpl.
  - reflexivity.
  - destruct (p x); simpl; now rewrite IH.
  - destruct (p x), (p y); reflexivity.
  - now rewrite IH1.
Qed.

Lemma count_app (p : Z -> bool) (l l' : list Z) :
  count p (l ++ l') = (count p l + count p l')%nat.
Proof. unfold count. now rewrite filter_app, length_app. Qed.

Lemma count_all (p : Z -> bool) (l : list Z) :
  (forall x, In x l -> p x = true) -> count p l = length l.
Proof.
  unfold count. induction l as [|x t IH]; intros H; simpl; [reflexivity|].
  rewrite (H x) by now left. simpl. f_equal. apply IH.
  intros y Hy. apply H. now right.
Qed.

Lemma select_half_is_median (l : list Z) :
  l <> [] -> is_median l (select (length l / 2) l).
Proof.
  intros Hne.
  assert (Hlen : (0 < length l)%nat) by (destruct l; [congruence|simpl; lia]).
  assert (Hk : (length l / 2 < length l)%nat)
    by (apply Nat.div_lt; lia).
  set (k := (length l / 2)%nat) in *.
  split; [now apply select_In|].
  unfold select. set (s := sort l).
  assert (Hs : StronglySorted Z.le s) by apply sort_sorted.
  assert (Hls : length s = length l) by apply length_sort.
  rewrite !(count_perm _ l s) by apply sort_perm.
  assert (Hsplit : forall p n,
             count p s = (count p (firstn n s) + count p (skipn n s))%nat)
    by (intros p n; now rewrite <- count_app, firstn_skipn).
  rewrite (Hsplit _ (S k)) at 1. rewrite (Hsplit (fun x => nth k s 0 <=? x) k).
  assert (H1 : count (fun x => x <=? nth k s 0) (firstn (S k) s) = S k).
  { rewrite count_all.
    - rewrite length_firstn. lia.
    - intros x Hx. apply (In_nth _ _ 0) in Hx as (i & Hi & <-).
      rewrite length_firstn in Hi.
      rewrite nth_firstn.
      assert (E : (i <? S k)%nat = true) by (apply Nat.ltb_lt; lia).
      rewrite E. apply Z.leb_le. apply sorted_nth_le; try assumption; lia. }
  assert (H2 : count (fun x => nth k s 0 <=? x) (skipn k s) = (length l - k)%nat).
  { rewrite count_all.
    - rewrite length_skipn. lia.
    - intros x Hx. apply (In_nth _ _ 0) in Hx as (i & Hi & <-).
      rewrite length_skipn in Hi.
      rewrite nth_skipn. apply Z.leb_le.
      apply sorted_nth_le; try assumption; lia. }
  rewrite H1, H2.
  pose proof (Nat.div_mod_eq (length l) 2) as Hdm.
  pose proof (Nat.mod_upper_bound (length l) 2 ltac:(lia)) as Hm.
  fold k in Hdm. split; lia.
Qed.

Lemma select_constant (rank : nat) (c : Z) (l : list Z) :
  (rank < length l)%nat -> (forall x, In x l -> x = c) -> select rank l = c.
Proof. intros Hr Hc. apply Hc. now apply select_In. Qed.

(** ** The filter on a two-dimensional image *)

Lemma extend_inside (m : extend_mode) (len i : Z) :
  0 <= i < len -> extend m len i = Some i.
Proof.
  intros H. unfold extend.
  assert (E : (0 <=? i) && (i <? len) = true)
    by (apply andb_true_iff; split; [apply Z.leb_le|apply Z.ltb_lt]; lia).
  now rewrite E.
Qed.

Lemma extend_reflect_range (len i : Z) :
  0 < len -> exists k, extend reflect len i = Some k /\ 0 <= k < len.
Proof.
  intros Hlen. unfold extend.
  destruct ((0 <=? i) && (i <? len)) eqn:E.
  - apply andb_true_iff in E as [E1 E2].
    apply Z.leb_le in E1. apply Z.ltb_lt in E2. exists i. split; [reflexivity|lia].
  - pose proof (Z.mod_pos_bound i (2 * len) ltac:(lia)) as Hm.
    eexists. split; [reflexivity|].
    destruct (i mod (2 * len) <? len) eqn:E'.
    + apply Z.ltb_lt in E'. lia.
    + apply Z.ltb_ge in E'. lia.
Qed.

Lemma pixel_inside (m : extend_mode) (cval : Z) (image : ndarray)
  (h w i j : nat) :
  shape image = [h; w] -> (i < h)%nat -> (j < w)%nat ->
  pixel m cval image h w (Z.of_nat i) (Z.of_nat j) = item2 image i j.
Proof.
  intros Hs Hi Hj. unfold pixel.
  rewrite !extend_inside by lia. rewrite !Nat2Z.id.
  symmetry. now apply item2_nth with (h := h).
Qed.

Lemma rank_filter2_item2 image h w rank fp fh fw m cval i j :
  (i < h)%nat -> (j < w)%nat ->
  item2 (rank_filter2 image h w rank fp fh fw m cval) i j
  = select rank (window m cval image h w (offsets fp fh fw) i j).
Proof.
  intros Hi Hj. unfold rank_filter2, item2. cbn [shape data].
  rewrite <- (length_seq w 0) at 1.
  rewrite (nth_outer _ _ _ i j 0%nat 0%nat) by now rewrite length_seq.
  now rewrite !seq_nth.
Qed.

Lemma rank_filter2_shape image h w rank fp fh fw m cval :
  shape (rank_filter2 image h w rank fp fh fw m cval) = [h; w] /\
  length (data (rank_filter2 image h w rank fp fh fw m cval)) = (h * w)%nat.
Proof.
  unfold rank_filter2. cbn [shape data]. split; [reflexivity|].
  now rewrite length_outer, !length_seq.
Qed.

Lemma count_nonzero_le (a : ndarray) :
  (count_nonzero a <= length (data a))%nat.
Proof. apply filter_length_le. Qed.

Lemma rmedian_unfold (image : ndarray) (h w : nat) (ri ro : Q) (inv : bool)
  (fp : ndarray) :
  shape image = [h; w] -> _ring ri ro inv = inr fp ->
  (0 < count_nonzero fp)%nat ->
  rmedian image ri ro inv
  = inr (rank_filter2 image h w (count_nonzero fp / 2) fp
           (side ro) (side ro) reflect 0).
Proof.
  intros Hs Hfp HK. unfold rmedian. rewrite Hfp.
  destruct (ring_shape _ _ _ _ Hfp) as [Hfs Hl].
  pose proof (count_nonzero_le fp) as Hle.
  assert (Hn : (0 < side ro)%nat) by nia.
  unfold median_filter, ndim. rewrite Hfs, Hs. cbn [filter].
  assert (E : (0 <? side ro)%nat = true) by now apply Nat.ltb_lt.
  rewrite E. cbn [length Nat.eqb negb].
  assert (E' : (count_nonzero fp <=? count_nonzero fp / 2)%nat = false).
  { apply Nat.leb_gt. apply Nat.div_lt; lia. }
  now rewrite E'.
Qed.

(** Every outcome of [rmedian] is within the model: the branch of
    [median_filter] left unmodelled is never reached from [rmedian]. *)
Lemma rmedian_modelled (image : ndarray) (ri ro : Q) (inv : bool) msg :
  rmedian image ri ro inv <> inl (NotImplementedError msg).
Proof.
  unfold rmedian. destruct (_ring ri ro inv) as [e|fp] eqn:Hfp.
  - destruct (Qlt_le_dec ro ri) as [Hlt|Hle].
    + rewrite (ring_fails _ _ inv Hlt) in Hfp. injection Hfp as <-. discriminate.
    + rewrite (ring_unfold _ _ inv Hle) in Hfp. discriminate.
  - destruct (ring_shape _ _ _ _ Hfp) as [Hs Hl].
    pose proof (count_nonzero_le fp) as HK.
    unfold median_filter, ndim. rewrite Hs. cbn [filter].
    destruct (0 <? side ro)%nat eqn:E; cbn [length].
    + destruct (shape image) as [|h [|w [|? ?]]]; cbn [length Nat.eqb negb];
        try discriminate.
      destruct (count_nonzero fp <=? count_nonzero fp / 2)%nat; discriminate.
    + apply Nat.ltb_ge in E.
      assert (E' : (count_nonzero fp <=? count_nonzero fp / 2)%nat = true)
        by (apply Nat.leb_le; nia).
      rewrite E'. destruct (negb _); discriminate.
Qed.

(** ** The pixels a ring selects *)

Lemma filter_map_comm {A B : Type} (p : B -> bool) (g : A -> B) (l : list A) :
  filter p (map g l) = map g (filter (fun a => p (g a)) l).
Proof.
  induction l as [|a l IH]; simpl; [reflexivity|].
  destruct (p (g a)); simpl; now rewrite IH.
Qed.

Lemma outer_pair_map {A B : Type} (g : A -> B) (col row : list A) :
  outer pair (map g col) (map g row)
  = map (fun c => (g (fst c), g (snd c))) (outer pair col row).
Proof.
  unfold outer. induction col as [|a col IH]; simpl; [reflexivity|].
  now rewrite map_app, !map_map, IH.
Qed.

Lemma in_outer_pair {A B : Type} (col : list A) (row : list B) (c : A * B) :
  In c (outer pair col row) <-> In (fst c) col /\ In (snd c) row.
Proof.
  unfold outer. rewrite in_flat_map. destruct c as [a b]. simpl. split.
  - intros (a' & Ha & Hb). apply in_map_iff in Hb as (b' & E & Hb).
    injection E as -> ->. now split.
  - intros [Ha Hb]. exists a. split; [exact Ha|]. now apply in_map.
Qed.

Lemma axis_as_map (ro : Q) :
  arange (- int ro) (int ro + 1)
  = map (fun k => Z.of_nat k - int ro) (seq 0 (side ro)).
Proof.
  unfold arange, side.
  replace (int ro + 1 - - int ro) with (2 * int ro + 1) by lia.
  apply map_ext. intros k. lia.
Qed.

Lemma ring_cell_bit (ri ro : Q) (inv : bool) (fp : ndarray) (i j : nat) :
  _ring ri ro inv = inr fp -> (i < side ro)%nat -> (j < side ro)%nat ->
  negb (item2 fp i j =? 0) = (item2 fp i j =? 1).
Proof.
  intros Hfp Hi Hj. rewrite (ring_item2 _ _ _ _ _ _ Hfp Hi Hj).
  now destruct (xorb _ _).
Qed.

Lemma offsets_selected (ri ro : Q) (inv : bool) (fp : ndarray) :
  _ring ri ro inv = inr fp ->
  offsets fp (side ro) (side ro) = selected fp ro.
Proof.
  intros Hfp. unfold offsets, selected.
  rewrite axis_as_map, outer_pair_map, filter_map_comm. cbn [fst snd].
  assert (Hhalf : (0 < side ro)%nat -> Z.of_nat (side ro / 2) = int ro).
  { unfold side. intros H.
    rewrite Nat2Z.inj_div, Z2Nat.id by lia. change (Z.of_nat 2) with 2.
    symmetry. apply (Z.div_unique _ _ _ 1); lia. }
  rewrite (filter_ext_in
             (fun c : nat * nat =>
                cell_at fp ro (Z.of_nat (fst c) - int ro)
                              (Z.of_nat (snd c) - int ro) =? 1)
             (fun c : nat * nat => negb (item2 fp (fst c) (snd c) =? 0))).
  - apply map_ext_in. intros [i j] Hin.
    apply filter_In in Hin as [Hin _].
    apply in_outer_pair in Hin as [Hi _]. apply in_seq in Hi.
    cbn [fst snd] in *. rewrite Hhalf by lia. reflexivity.
  - intros [i j] Hin. apply in_outer_pair in Hin as [Hi Hj].
    apply in_seq in Hi, Hj. cbn [fst snd] in *.
    unfold cell_at.
    replace (Z.to_nat (Z.of_nat i - int ro + int ro)) with i by lia.
    replace (Z.to_nat (Z.of_nat j - int ro + int ro)) with j by lia.
    symmetry. apply (ring_cell_bit ri ro inv); [assumption|lia|lia].
Qed.

Lemma in_arange (a b k : Z) : In k (arange a b) <-> a <= k < b.
Proof.
  unfold arange. rewrite in_map_iff. split.
  - intros (n & <- & Hn). apply in_seq in Hn. lia.
  - intros H. exists (Z.to_nat (k - a)). split; [lia|]. apply in_seq. lia.
Qed.

Lemma in_selected (fp : ndarray) (ro : Q) (a b : Z) :
  In (a, b) (selected fp ro)
  <-> - int ro <= a <= int ro /\ - int ro <= b <= int ro
      /\ cell_at fp ro a b = 1.
Proof.
  unfold selected. rewrite filter_In, in_outer_pair, !in_arange.
  cbn [fst snd]. rewrite Z.eqb_eq. intuition lia.
Qed.

Lemma data_as_items (a : ndarray) (h w : nat) :
  shape a = [h; w] -> length (data a) = (h * w)%nat ->
  data a
  = map (fun c : nat * nat => item2 a (fst c) (snd c))
        (outer pair (seq 0 h) (seq 0 w)).
Proof.
  intros Hs Hl. rewrite map_outer. cbn [fst snd].
  apply (array_ext _ _ h w); [exact Hl|now rewrite length_outer, !length_seq|].
  intros i j Hi Hj.
  rewrite <- (length_seq w 0) at 2.
  rewrite (nth_outer _ _ _ i j 0%nat 0%nat) by now rewrite length_seq.
  rewrite !seq_nth by assumption. cbn [Nat.add].
  symmetry. now apply item2_nth with (h := h).
Qed.

Lemma length_selected (ri ro : Q) (inv : bool) (fp : ndarray) :
  _ring ri ro inv = inr fp -> length (selected fp ro) = count_nonzero fp.
Proof.
  intros Hfp. rewrite <- (offsets_selected ri ro inv fp Hfp).
  destruct (ring_shape _ _ _ _ Hfp) as [Hs Hl].
  unfold offsets, count_nonzero. rewrite length_map.
  rewrite (data_as_items fp _ _ Hs Hl) at 1.
  now rewrite filter_map_comm, length_map.
Qed.

Lemma NoDup_outer_pair {A B : Type} (col : list A) (row : list B) :
  NoDup col -> NoDup row -> NoDup (outer pair col row).
Proof.
  intros Hc Hr. unfold outer.
  induction Hc as [|a col Ha Hc IH]; simpl; [constructor|].
  apply NoDup_app.
  - apply NoDup_map_NoDup_ForallPairs; [|exact Hr].
    intros x y _ _ E. now injection E.
  - exact IH.
  - intros [a' b] H1 H2. apply in_map_iff in H1 as (b' & E & _).
    injection E as E1 E2. subst a' b'.
    apply (in_outer_pair col row (a, b)) in H2 as [H2 _]. contradiction.
Qed.

Lemma NoDup_arange (a b : Z) : NoDup (arange a b).
Proof.
  unfold arange. apply NoDup_map_NoDup_ForallPairs; [|apply seq_NoDup].
  intros x y _ _ E. lia.
Qed.

Lemma NoDup_selected (fp : ndarray) (ro : Q) : NoDup (selected fp ro).
Proof.
  unfold selected. apply NoDup_filter.
  apply NoDup_outer_pair; apply NoDup_arange.
Qed.

(** ** Claims about [rmedian] *)

(** C1, refuted: with [r_inner = r_outer = 1] the footprint has no 1-cell
    and [median_filter] raises; no array is returned. *)
Lemma rmedian_degenerate_ring_raises :
  ~ rmedian_median_for_all_valid_radii.
Proof.
  intros H.
  destruct (H (mk_ndarray [1; 1]%nat [7]) 1%nat 1%nat 1%Q 1%Q false)
    as (fp & out & _ & Hout & _); try reflexivity; try discriminate.
Qed.

Example rmedian_1_1_raises :
  rmedian (mk_ndarray [1; 1]%nat [7]) 1 1 false
  = inl (RuntimeError "rank not within filter footprint size").
Proof. reflexivity. Qed.

(** C1, amended.  On a two-dimensional image, for radii whose footprint
    has [K > 0] 1-cells, [rmedian] returns an array of the shape of its
    input.  Its pixel [(i, j)] is computed from exactly the [K] pixels of
    the reflected image at [(i + a, j + b)], [(a, b)] ranging over the
    offsets of the 1-cells (each taken once; 0-cells contribute nothing):
    it is their element of rank [K / 2] in ascending order, which is a
    median of them, the upper of the two middle values when [K] is even.
    Inside the image a selected pixel is the input pixel itself. *)
Theorem rmedian_selects_rank_median (image : ndarray) (h w : nat)
  (ri ro : Q) (inv : bool) (fp : ndarray) :
  shape image = [h; w] -> _ring ri ro inv = inr fp ->
  (0 < count_nonzero fp)%nat ->
  exists out, rmedian image ri ro inv = inr out /\
    shape out = shape image /\ length (data out) = (h * w)%nat /\
    NoDup (selected fp ro) /\ length (selected fp ro) = count_nonzero fp /\
    (forall a b : Z,
        In (a, b) (selected fp ro)
        <-> - int ro <= a <= int ro /\ - int ro <= b <= int ro
            /\ cell_at fp ro a b = 1) /\
    (forall i j : nat, (i < h)%nat -> (j < w)%nat ->
        pixel reflect 0 image h w (Z.of_nat i) (Z.of_nat j) = item2 image i j) /\
    forall i j : nat, (i < h)%nat -> (j < w)%nat ->
      item2 out i j
      = nth (count_nonzero fp / 2)
            (sort (window reflect 0 image h w (selected fp ro) i j)) 0
      /\ is_median (window reflect 0 image h w (selected fp ro) i j)
                   (item2 out i j).
Proof.
  intros Hs Hfp HK.
  eexists. split; [exact (rmedian_unfold image h w ri ro inv fp Hs Hfp HK)|].
  destruct (rank_filter2_shape image h w (count_nonzero fp / 2) fp
              (side ro) (side ro) reflect 0) as [Hos Hol].
  pose proof (length_selected ri ro inv fp Hfp) as Hlen.
  split; [now rewrite Hos, Hs|]. split; [exact Hol|].
  split; [apply NoDup_selected|]. split; [exact Hlen|].
  split; [intros a b; apply in_selected|].
  split; [intros i j Hi Hj; now apply pixel_inside|].
  intros i j Hi Hj.
  rewrite rank_filter2_item2 by assumption.
  rewrite (offsets_selected ri ro inv fp Hfp).
  split; [reflexivity|].
  set (win := window reflect 0 image h w (selected fp ro) i j).
  assert (Hwl : length win = count_nonzero fp)
    by (unfold win, window; now rewrite length_map).
  rewrite <- Hwl. apply select_half_is_median.
  intros E. rewrite E in Hwl. simpl in Hwl. lia.
Qed.

Lemma rmedian_selects_rank_median_witness :
  exists out,
    rmedian (mk_ndarray [3; 3]%nat [0; 1; 0; 2; 0; 3; 0; 4; 0]) 0 1 false
    = inr out /\ item2 out 1 1 = 3.
Proof.
  destruct (rmedian_selects_rank_median
              (mk_ndarray [3; 3]%nat [0; 1; 0; 2; 0; 3; 0; 4; 0]) 3 3 0 1 false
              (mk_ndarray [3; 3]%nat [0; 1; 0; 1; 0; 1; 0; 1; 0]))
    as (out & Hout & _ & _ & _ & _ & _ & _ & Hpix).
  - reflexivity.
  - reflexivity.
  - vm_compute. lia.
  - exists out. split; [exact Hout|].
    destruct (Hpix 1%nat 1%nat) as [Hv _]; [lia|lia|].
    rewrite Hv. reflexivity.
Defined.

(** A window of even size: the four neighbours 1, 2, 3, 4 of the central
    pixel give 3, the upper middle value, where the mean of the two middle
    values would be 5/2. *)
Example rmedian_even_window :
  rmedian (mk_ndarray [3; 3]%nat [0; 1; 0; 2; 0; 3; 0; 4; 0]) 0 1 false
  = inr (mk_ndarray [3; 3]%nat [1; 0; 1; 0; 3; 0; 2; 0; 3])
  /\ is_median [1; 2; 3; 4] 3
  /\ ~ is_midpoint_median [1; 2; 3; 4] 3.
Proof.
  split; [reflexivity|]. split.
  - unfold is_median. simpl. split; [tauto|]. vm_compute. split; lia.
  - unfold is_midpoint_median. vm_compute. discriminate.
Qed.

(** C5. For radii [0 <= r_inner <= r_outer], an input that is not
    two-dimensional makes [rmedian] raise the shape error of
    [median_filter]; the check precedes the filter, so the error does not
    depend on the contents of the input. *)
Theorem rmedian_rejects_non_2d (image : ndarray) (ri ro : Q) (inv : bool) :
  ndim image <> 2%nat -> (0 <= ri)%Q -> (ri <= ro)%Q ->
  rmedian image ri ro inv
  = inl (RuntimeError "footprint array has incorrect shape.").
Proof.
  intros Hnd H0 Hle.
  assert (Hro : (0 <= ro)%Q) by (eapply Qle_trans; eassumption).
  pose proof (int_nonneg ro Hro) as Hint.
  unfold rmedian. rewrite (ring_unfold ri ro inv Hle).
  unfold median_filter. cbn [shape filter].
  assert (E : (0 <? side ro)%nat = true)
    by (apply Nat.ltb_lt; unfold side; lia).
  rewrite E. cbn [length].
  assert (E' : (2 =? ndim image)%nat = false)
    by (apply Nat.eqb_neq; congruence).
  now rewrite E'.
Qed.

Lemma rmedian_rejects_non_2d_witness :
  rmedian (mk_ndarray [3]%nat [1; 2; 3]) 0 1 false
  = inl (RuntimeError "footprint array has incorrect shape.").
Proof.
  apply (rmedian_rejects_non_2d (mk_ndarray [3]%nat [1; 2; 3]) 0 1 false).
  - discriminate.
  - discriminate.
  - discriminate.
Defined.

(** C8, refuted: with [r_inner = r_outer = 2] the footprint selects
    nothing and the constant image is not returned; [median_filter]
    raises. *)
Lemma constant_image_degenerate_ring_raises :
  ~ constant_image_fixed_for_all_valid_radii.
Proof.
  intros H.
  specialize (H 7 2%nat 2%nat 2%Q 2%Q false).
  assert (E : rmedian (constant_image 7 2 2) 2 2 false
              = inl (RuntimeError "rank not within filter footprint size"))
    by reflexivity.
  rewrite E in H. discriminate H; discriminate.
Qed.

Lemma pixel_reflect_constant (c : Z) (h w : nat) (i j : Z) :
  (0 < h)%nat -> (0 < w)%nat ->
  pixel reflect 0 (constant_image c h w) h w i j = c.
Proof.
  intros Hh Hw. unfold pixel.
  destruct (extend_reflect_range (Z.of_nat h) i ltac:(lia)) as (i' & -> & Hi).
  destruct (extend_reflect_range (Z.of_nat w) j ltac:(lia)) as (j' & -> & Hj).
  cbn [constant_image data]. apply nth_repeat_lt. nia.
Qed.

(** C8, amended.  Filtering a constant image with a ring footprint that
    has at least one 1-cell returns the same image, shape and pixels. *)
Theorem rmedian_constant_image (c : Z) (h w : nat) (ri ro : Q) (inv : bool)
  (fp : ndarray) :
  _ring ri ro inv = inr fp -> (0 < count_nonzero fp)%nat ->
  rmedian (constant_image c h w) ri ro inv = inr (constant_image c h w).
Proof.
  intros Hfp HK.
  rewrite (rmedian_unfold (constant_image c h w) h w ri ro inv fp
             eq_refl Hfp HK).
  f_equal. unfold rank_filter2, constant_image. f_equal.
  apply (array_ext _ _ h w);
    [now rewrite length_outer, !length_seq|apply repeat_length|].
  intros i j Hi Hj.
  rewrite <- (length_seq w 0) at 1.
  rewrite (nth_outer _ _ _ i j 0%nat 0%nat) by now rewrite length_seq.
  rewrite nth_repeat_lt by nia.
  apply select_constant.
  - unfold window. rewrite length_map, (offsets_selected ri ro inv fp Hfp).
    rewrite (length_selected ri ro inv fp Hfp).
    apply Nat.div_lt; lia.
  - intros x Hx. unfold window in Hx.
    apply in_map_iff in Hx as (d & <- & _).
    apply pixel_reflect_constant; lia.
Qed.

Lemma rmedian_constant_image_witness :
  rmedian (constant_image 7 2 3) 0 1 false = inr (constant_image 7 2 3).
Proof.
  apply (rmedian_constant_image 7 2 3 0 1 false
           (mk_ndarray [3; 3]%nat [0; 1; 0; 1; 0; 1; 0; 1; 0])).
  - reflexivity.
  - vm_compute. lia.
Defined.

(** ** Reflection at the edges *)

Lemma reflected_line_extend {A : Type} (d : A) (l : list A) (k : Z) :
  (0 < length l)%nat ->
  exists k', extend reflect (Z.of_nat (length l)) k = Some k'
             /\ 0 <= k' < Z.of_nat (length l)
             /\ reflected_line d l k = nth (Z.to_nat k') l d.
Proof.
  intros Hl. unfold reflected_line, extend.
  set (n := Z.of_nat (length l)).
  assert (Hn : 0 < n) by (unfold n; lia).
  pose proof (Z.mod_pos_bound k (2 * n) ltac:(lia)) as Hm.
  assert (Hsmall : forall m, 0 <= m < n ->
            nth (Z.to_nat m) (l ++ rev l) d = nth (Z.to_nat m) l d)
    by (intros m Hm'; apply app_nth1; unfold n in *; lia).
  destruct ((0 <=? k) && (k <? n)) eqn:E.
  - apply andb_true_iff in E as [E1 E2].
    apply Z.leb_le in E1. apply Z.ltb_lt in E2.
    exists k. split; [reflexivity|]. split; [lia|].
    rewrite Z.mod_small by lia. apply Hsmall. lia.
  - eexists. split; [reflexivity|].
    destruct (k mod (2 * n) <? n) eqn:E'.
    + apply Z.ltb_lt in E'. split; [lia|]. apply Hsmall. lia.
    + apply Z.ltb_ge in E'. split; [lia|].
      rewrite app_nth2 by (unfold n in *; lia).
      rewrite rev_nth by (unfold n in *; lia).
      f_equal. unfold n in *. lia.
Qed.

Lemma length_rows (a : ndarray) (h w : nat) : length (rows a h w) = h.
Proof. unfold rows. now rewrite length_map, length_seq. Qed.

Lemma nth_rows (a : ndarray) (h w i : nat) :
  (i < h)%nat -> nth i (rows a h w) [] = firstn w (skipn (i * w) (data a)).
Proof.
  intros Hi. unfold rows.
  rewrite (nth_indep _ [] (firstn w (skipn (0 * w) (data a))))
    by now rewrite length_map, length_seq.
  rewrite (map_nth (fun i => firstn w (skipn (i * w) (data a)))).
  now rewrite seq_nth.
Qed.

Lemma pixel_reflected (image : ndarray) (h w : nat) (i j : Z) :
  length (data image) = (h * w)%nat -> (0 < h)%nat -> (0 < w)%nat ->
  pixel reflect 0 image h w i j = reflected_image image h w i j.
Proof.
  intros Hl Hh Hw. unfold pixel, reflected_image.
  destruct (reflected_line_extend [] (rows image h w) i) as (i' & Ei & Hi & ->);
    [rewrite length_rows; exact Hh|].
  rewrite length_rows in Ei, Hi. rewrite Ei.
  rewrite nth_rows by lia.
  set (row := firstn w (skipn (Z.to_nat i' * w) (data image))).
  assert (Hrow : length row = w).
  { unfold row. rewrite length_firstn, length_skipn, Hl. nia. }
  destruct (reflected_line_extend 0 row j) as (j' & Ej & Hj & ->);
    [rewrite Hrow; exact Hw|].
  rewrite Hrow in Ej, Hj. rewrite Ej.
  unfold row. rewrite nth_firstn.
  assert (E : (Z.to_nat j' <? w)%nat = true) by (apply Nat.ltb_lt; lia).
  rewrite E. now rewrite nth_skipn.
Qed.

(** C10. The call leaves [mode] at its default, [reflect].  On a
    two-dimensional image, for a footprint with [K > 0] 1-cells, every
    output pixel, near an edge or not, is the value [median_filter] selects
    (rank [K / 2]) among the pixels that the 1-cells pick in the image
    extended by reflection about its edges. *)
Theorem rmedian_reflects_at_edges (image : ndarray) (h w : nat)
  (ri ro : Q) (inv : bool) (fp : ndarray) :
  shape image = [h; w] -> well_formed image ->
  _ring ri ro inv = inr fp -> (0 < count_nonzero fp)%nat ->
  exists out, rmedian image ri ro inv = inr out /\
    forall i j : nat, (i < h)%nat -> (j < w)%nat ->
      item2 out i j
      = select (count_nonzero fp / 2)
          (map (fun d : Z * Z =>
                  reflected_image image h w
                    (Z.of_nat i + fst d) (Z.of_nat j + snd d))
               (selected fp ro)).
Proof.
  intros Hs Hwf Hfp HK.
  eexists. split; [exact (rmedian_unfold image h w ri ro inv fp Hs Hfp HK)|].
  intros i j Hi Hj.
  rewrite rank_filter2_item2 by assumption.
  rewrite (offsets_selected ri ro inv fp Hfp).
  unfold window. f_equal. apply map_ext. intros d.
  apply pixel_reflected; [|lia|lia].
  unfold well_formed, size in Hwf. rewrite Hs in Hwf. simpl in Hwf. lia.
Qed.

Lemma rmedian_reflects_at_edges_witness :
  exists out,
    rmedian (mk_ndarray [2; 3]%nat [1; 2; 3; 4; 5; 6]) 0 1 false = inr out
    /\ item2 out 0 0 = 2.
Proof.
  destruct (rmedian_reflects_at_edges
              (mk_ndarray [2; 3]%nat [1; 2; 3; 4; 5; 6]) 2 3 0 1 false
              (mk_ndarray [3; 3]%nat [0; 1; 0; 1; 0; 1; 0; 1; 0]))
    as (out & Hout & Hpix).
  - reflexivity.
  - reflexivity.
  - reflexivity.
  - vm_compute. lia.
  - exists out. split; [exact Hout|].
    rewrite (Hpix 0%nat 0%nat) by lia. reflexivity.
Defined.

(** The boundary mode is observable: on a 3 x 4 image with the ring
    [(3/2, 2)], whose 1-cells are the four cells at distance 2, the five
    modes of [median_filter] give five different results, and [rmedian]
    returns the one of [reflect]. *)
Example boundary_modes_differ :
  let image :=
    mk_ndarray [3; 4]%nat [5; 1; 9; 3; 8; 2; 7; 4; 6; 12; 10; 11] in
  let fp :=
    mk_ndarray [5; 5]%nat
      [0; 0; 1; 0; 0;
       0; 0; 0; 0; 0;
       1; 0; 0; 0; 1;
       0; 0; 0; 0; 0;
       0; 0; 1; 0; 0] in
  _ring (3 # 2) 2 false = inr fp /\
  rmedian image (3 # 2) 2 false = median_filter image fp reflect 0 /\
  median_filter image fp reflect 0
  = inr (mk_ndarray [3; 4]%nat [8; 5; 7; 9; 6; 8; 9; 7; 10; 6; 9; 10]) /\
  median_filter image fp nearest 0
  = inr (mk_ndarray [3; 4]%nat [6; 5; 9; 3; 7; 8; 9; 4; 6; 11; 10; 11]) /\
  median_filter image fp mirror 0
  = inr (mk_ndarray [3; 4]%nat [9; 12; 10; 11; 8; 2; 7; 4; 10; 11; 9; 12]) /\
  median_filter image fp wrap 0
  = inr (mk_ndarray [3; 4]%nat [9; 3; 7; 4; 7; 4; 9; 3; 10; 11; 7; 12]) /\
  median_filter image fp constant 0
  = inr (mk_ndarray [3; 4]%nat [6; 3; 5; 1; 0; 0; 0; 0; 5; 1; 6; 3]).
Proof. cbv zeta. repeat split. Qed.

(** * Further properties of [_ring] and [rmedian] *)

(** ** Inversion and the symmetries of the square *)

Lemma count_nonzero_complement (l : list Z) :
  Forall (fun v => v = 0 \/ v = 1) l ->
  (length (filter (fun v => negb (Z.eqb v 0)) l)
   + length (filter (fun v => negb (Z.eqb v 0)) (map (fun v => Z.sub 1 v) l))
   = length l)%nat.
Proof.
  induction 1 as [|v l [-> | ->] _ IH]; cbn [map filter Z.eqb Z.sub negb length];
    [reflexivity| |]; simpl in *; lia.
Qed.

Lemma outer_ext_in {A B C : Type} (f g : A -> B -> C) col row :
  (forall a b, In a col -> In b row -> f a b = g a b) ->
  outer f col row = outer g col row.
Proof.
  intros H. unfold outer. induction col as [|a col IH]; simpl; [reflexivity|].
  f_equal.
  - apply map_ext_in. intros b Hb. apply H; [now left|exact Hb].
  - apply IH. intros a' b Ha Hb. apply H; [now right|exact Hb].
Qed.

Lemma ring_data_complement (ri ro : Q) (x : list Z) :
  outer (fun xi xj => astype (xorb true (in_annulus ri ro (xj ^ 2 + xi ^ 2))))
        x x
  = map (fun v => 1 - v)
        (outer (fun xi xj =>
                  astype (xorb false (in_annulus ri ro (xj ^ 2 + xi ^ 2))))
               x x).
Proof.
  rewrite map_outer. apply outer_ext_in. intros a b _ _.
  destruct (in_annulus ri ro (b ^ 2 + a ^ 2)); reflexivity.
Qed.

(** Inverting a ring complements it.  Whenever [r_outer >= r_inner], the
    footprints built with [invert=False] and [invert=True] have the same
    shape, every cell of the second is 1 minus the cell of the first, and
    their 1-cells together number the cells of the square. *)
Theorem ring_invert_complement (ri ro : Q) :
  (ri <= ro)%Q ->
  exists fp fp',
    _ring ri ro false = inr fp /\ _ring ri ro true = inr fp' /\
    shape fp' = shape fp /\
    data fp' = map (fun v => 1 - v) (data fp) /\
    (count_nonzero fp + count_nonzero fp' = side ro * side ro)%nat.
Proof.
  intros Hle. rewrite !(ring_unfold _ _ _ Hle).
  eexists. eexists. split; [reflexivity|]. split; [reflexivity|].
  unfold count_nonzero. cbn [shape data].
  split; [reflexivity|]. split; [apply ring_data_complement|].
  rewrite ring_data_complement.
  rewrite count_nonzero_complement.
  - now rewrite length_outer, length_axis.
  - apply Forall_outer. intros a b. destruct (xorb _ _); [now right|now left].
Qed.

Lemma ring_invert_complement_witness :
  exists fp fp',
    _ring 1 2 false = inr fp /\ _ring 1 2 true = inr fp' /\
    (count_nonzero fp + count_nonzero fp' = 25)%nat.
Proof.
  destruct (ring_invert_complement 1 2) as (fp & fp' & H1 & H2 & _ & _ & Hc).
  - discriminate.
  - exists fp, fp'. repeat split; assumption.
Defined.

Lemma radicand_flip_row (ro : Q) (i j : nat) :
  (i < side ro)%nat ->
  radicand ro (side ro - 1 - i) j = radicand ro i j.
Proof.
  unfold side, radicand. intros Hi.
  rewrite !Nat2Z.inj_sub, !Z2Nat.id by lia.
  change (Z.of_nat 1) with 1. nia.
Qed.

Lemma radicand_flip_col (ro : Q) (i j : nat) :
  (j < side ro)%nat ->
  radicand ro i (side ro - 1 - j) = radicand ro i j.
Proof.
  intros Hj. now rewrite radicand_swap, radicand_flip_row, radicand_swap.
Qed.

Lemma square_array_ext (a : ndarray) (n : nat) (f : nat -> nat -> Z) :
  shape a = [n; n] -> length (data a) = (n * n)%nat ->
  (forall i j, (i < n)%nat -> (j < n)%nat -> f i j = item2 a i j) ->
  mk_ndarray [n; n] (outer f (seq 0 n) (seq 0 n)) = a.
Proof.
  intros Hs Hl H. destruct a as [s d]. cbn [shape data] in *. subst s.
  f_equal.
  apply (array_ext _ _ n n); [now rewrite length_outer, !length_seq|exact Hl|].
  intros i j Hi Hj.
  rewrite <- (length_seq n 0) at 1.
  rewrite (nth_outer _ _ _ i j 0%nat 0%nat) by now rewrite length_seq.
  rewrite !seq_nth by assumption. cbn [Nat.add].
  rewrite (H i j Hi Hj). reflexivity.
Qed.

(** The footprint has all the symmetries of the square.  Whenever
    [r_outer >= r_inner], it is left unchanged by [np.flipud], by
    [np.fliplr] and by a quarter turn [np.rot90]. *)
Theorem ring_flip_symmetric (ri ro : Q) (inv : bool) :
  (ri <= ro)%Q ->
  exists fp, _ring ri ro inv = inr fp /\
    flipud fp = fp /\ fliplr fp = fp /\ rot90 fp = fp.
Proof.
  intros Hle.
  destruct (_ring ri ro inv) as [e|fp] eqn:Hfp;
    [rewrite ring_unfold in Hfp by assumption; discriminate|].
  exists fp. split; [reflexivity|].
  destruct (ring_shape _ _ _ _ Hfp) as [Hs Hl].
  unfold flipud, fliplr, rot90. rewrite Hs.
  split; [|split]; apply square_array_ext; try assumption; intros i j Hi Hj;
    rewrite !(ring_item2 ri ro inv fp) by (try assumption; lia).
  - now rewrite radicand_flip_row.
  - now rewrite radicand_flip_col.
  - now rewrite radicand_flip_col, radicand_swap.
Qed.

Lemma ring_flip_symmetric_witness :
  exists fp, _ring (1 # 2) 3 false = inr fp /\
    flipud fp = fp /\ fliplr fp = fp /\ rot90 fp = fp.
Proof.
  apply (ring_flip_symmetric (1 # 2) 3 false). discriminate.
Defined.

(** ** Counting the cells of a ring *)

(** A finite set of lattice points that is stable under a quarter turn
    about the origin and misses the origin has a multiple of four
    elements. *)
Lemma fourfold_count (sel : list (Z * Z)) :
  NoDup sel ->
  (forall a b, In (a, b) sel -> In (- b, a) sel) ->
  ~ In (0, 0) sel ->
  exists k, length sel = (4 * k)%nat.
Proof.
  intros Hnd H1 H0.
  assert (H2 : forall a b, In (a, b) sel -> In (- a, - b) sel)
    by (intros a b H; apply H1, H1, H).
  assert (H3 : forall a b, In (a, b) sel -> In (b, - a) sel).
  { intros a b H. apply H2, H1 in H. now rewrite Z.opp_involutive in H. }
  set (q1 := fun c : Z * Z => (0 <? fst c) && (0 <=? snd c)).
  set (r1 := fun c : Z * Z => (- snd c, fst c)).
  set (r2 := fun c : Z * Z => (- fst c, - snd c)).
  set (r3 := fun c : Z * Z => (snd c, - fst c)).
  set (S1 := filter q1 sel).
  assert (M0 : forall c, In c S1 <-> In c sel /\ 0 < fst c /\ 0 <= snd c).
  { intros c. unfold S1, q1. rewrite filter_In, andb_true_iff.
    rewrite Z.ltb_lt, Z.leb_le. tauto. }
  assert (M1 : forall c, In c (map r1 S1)
                         <-> In c sel /\ fst c <= 0 /\ 0 < snd c).
  { intros [a b]. rewrite in_map_iff. cbn [fst snd]. split.
    - intros ([x y] & E & Hy). apply M0 in Hy as (Hy & ? & ?).
      unfold r1 in E. cbn [fst snd] in *. injection E as <- <-.
      split; [now apply H1|lia].
    - intros (Hc & ? & ?). exists (b, - a). split.
      + unfold r1. cbn [fst snd]. now rewrite Z.opp_involutive.
      + apply M0. cbn [fst snd]. split; [now apply H3|lia]. }
  assert (M2 : forall c, In c (map r2 S1)
                         <-> In c sel /\ fst c < 0 /\ snd c <= 0).
  { intros [a b]. rewrite in_map_iff. cbn [fst snd]. split.
    - intros ([x y] & E & Hy). apply M0 in Hy as (Hy & ? & ?).
      unfold r2 in E. cbn [fst snd] in *. injection E as <- <-.
      split; [now apply H2|lia].
    - intros (Hc & ? & ?). exists (- a, - b). split.
      + unfold r2. cbn [fst snd]. now rewrite !Z.opp_involutive.
      + apply M0. cbn [fst snd]. split; [now apply H2|lia]. }
  assert (M3 : forall c, In c (map r3 S1)
                         <-> In c sel /\ 0 <= fst c /\ snd c < 0).
  { intros [a b]. rewrite in_map_iff. cbn [fst snd]. split.
    - intros ([x y] & E & Hy). apply M0 in Hy as (Hy & ? & ?).
      unfold r3 in E. cbn [fst snd] in *. injection E as <- <-.
      split; [now apply H3|lia].
    - intros (Hc & ? & ?). exists (- b, a). split.
      + unfold r3. cbn [fst snd]. now rewrite Z.opp_involutive.
      + apply M0. cbn [fst snd]. split; [now apply H1|lia]. }
  assert (N1 : NoDup S1) by (apply NoDup_filter; exact Hnd).
  assert (Ninj : forall r : Z * Z -> Z * Z,
             (forall x y, r x = r y -> x = y) -> NoDup (map r S1)).
  { intros r Hr. apply NoDup_map_NoDup_ForallPairs; [|exact N1].
    intros x y _ _. apply Hr. }
  assert (P : Permutation sel (S1 ++ map r1 S1 ++ map r2 S1 ++ map r3 S1)).
  { apply NoDup_Permutation; [exact Hnd| |].
    - apply NoDup_app; [exact N1| |].
      + apply NoDup_app; [|apply NoDup_app|].
        * apply Ninj. intros [a b] [c d] E. unfold r1 in E. cbn in E.
          injection E as E1 E2. f_equal; lia.
        * apply Ninj. intros [a b] [c d] E. unfold r2 in E. cbn in E.
          injection E as E1 E2. f_equal; lia.
        * apply Ninj. intros [a b] [c d] E. unfold r3 in E. cbn in E.
          injection E as E1 E2. f_equal; lia.
        * intros c Hc Hc'. apply M2 in Hc. apply M3 in Hc'. lia.
        * intros c Hc Hc'. apply M1 in Hc.
          apply in_app_or in Hc' as [Hc'|Hc'];
            [apply M2 in Hc'|apply M3 in Hc']; lia.
      + intros c Hc Hc'. apply M0 in Hc.
        apply in_app_or in Hc' as [Hc'|Hc']; [apply M1 in Hc'; lia|].
        apply in_app_or in Hc' as [Hc'|Hc'];
          [apply M2 in Hc'|apply M3 in Hc']; lia.
    - intros [a b]. rewrite !in_app_iff, M0, M1, M2, M3. cbn [fst snd].
      split; [|tauto]. intros Hc.
      assert (a <> 0 \/ b <> 0).
      { destruct (Z.eq_dec a 0) as [->|]; [|now left].
        destruct (Z.eq_dec b 0) as [->|]; [contradiction|now right]. }
      assert (C : (0 < a /\ 0 <= b) \/ (a <= 0 /\ 0 < b)
                  \/ (a < 0 /\ b <= 0) \/ (0 <= a /\ b < 0)) by lia.
      tauto. }
  exists (length S1).
  rewrite (Permutation_length P), !length_app, !length_map. lia.
Qed.

Lemma selected_quarter_turn (ri ro : Q) (inv : bool) (fp : ndarray) (a b : Z) :
  _ring ri ro inv = inr fp ->
  In (a, b) (selected fp ro) -> In (- b, a) (selected fp ro).
Proof.
  intros Hfp H. apply in_selected in H as (Ha & Hb & Hc).
  apply in_selected. split; [lia|]. split; [lia|].
  rewrite (cell_at_ring ri ro inv fp) in * by (try assumption; lia).
  rewrite <- Hc. do 3 f_equal. ring.
Qed.

Lemma inr_eq {A B : Type} (x y : B) : @inr A B x = inr y -> x = y.
Proof. congruence. Qed.

Lemma ring_counts_sum (ri ro : Q) (fp fp' : ndarray) :
  _ring ri ro false = inr fp -> _ring ri ro true = inr fp' ->
  (count_nonzero fp + count_nonzero fp' = side ro * side ro)%nat.
Proof.
  intros Hfp Hfp'.
  destruct (Qlt_le_dec ro ri) as [Hlt|Hle];
    [rewrite (ring_fails _ _ _ Hlt) in Hfp; discriminate|].
  rewrite (ring_unfold _ _ false Hle) in Hfp.
  rewrite (ring_unfold _ _ true Hle) in Hfp'.
  apply inr_eq in Hfp, Hfp'. subst fp fp'.
  unfold count_nonzero. cbn [data].
  rewrite ring_data_complement, count_nonzero_complement.
  - now rewrite length_outer, length_axis.
  - apply Forall_outer. intros a b. destruct (xorb _ _); [now right|now left].
Qed.

Lemma ring_counts_mod4 (ri ro : Q) (fp fp' : ndarray) :
  (0 <= ri)%Q ->
  _ring ri ro false = inr fp -> _ring ri ro true = inr fp' ->
  (count_nonzero fp mod 4 = 0 /\ count_nonzero fp' mod 4 = 1)%nat.
Proof.
  intros H0 Hfp Hfp'.
  assert (Hle : (ri <= ro)%Q).
  { destruct (Qlt_le_dec ro ri) as [Hlt|Hle]; [|exact Hle].
    rewrite (ring_fails _ _ _ Hlt) in Hfp. discriminate. }
  assert (Hro : 0 <= int ro)
    by (apply int_nonneg; eapply Qle_trans; eassumption).
  destruct (fourfold_count (selected fp ro)) as [k Hk].
  - apply NoDup_selected.
  - intros a b. apply (selected_quarter_turn ri ro false fp a b Hfp).
  - intros H. apply in_selected in H as (_ & _ & Hc).
    rewrite (cell_at_ring ri ro false fp 0 0 Hfp) in Hc by lia.
    cbn [xorb Z.mul Z.add] in Hc.
    rewrite (centre_not_in_annulus ri ro H0) in Hc. discriminate.
  - rewrite (length_selected ri ro false fp Hfp) in Hk.
    pose proof (ring_counts_sum ri ro fp fp' Hfp Hfp') as Hsum.
    assert (Hside : exists r, side ro = (2 * r + 1)%nat).
    { exists (Z.to_nat (int ro)). unfold side. lia. }
    destruct Hside as [r Hr]. rewrite Hr in Hsum.
    split.
    + rewrite Hk, Nat.mul_comm. apply Nat.Div0.mod_mul.
    + replace (count_nonzero fp') with (1 + (r * r + r - k) * 4)%nat by nia.
      rewrite Nat.Div0.mod_add. reflexivity.
Qed.

(** The size of the median window.  For [0 <= r_inner <= r_outer] the
    number of 1-cells of the plain ring is a multiple of 4, hence even, and
    that of the inverted ring is 1 more than a multiple of 4, hence odd. *)
Theorem ring_count_mod_4 (ri ro : Q) :
  (0 <= ri)%Q -> (ri <= ro)%Q ->
  exists fp fp',
    _ring ri ro false = inr fp /\ _ring ri ro true = inr fp' /\
    (count_nonzero fp mod 4 = 0)%nat /\ (count_nonzero fp' mod 4 = 1)%nat.
Proof.
  intros H0 Hle.
  pose proof (ring_unfold ri ro false Hle) as Hfp.
  pose proof (ring_unfold ri ro true Hle) as Hfp'.
  destruct (_ring ri ro false) as [e|fp] eqn:E; [discriminate|].
  destruct (_ring ri ro true) as [e|fp'] eqn:E'; [discriminate|].
  exists fp, fp'. split; [reflexivity|]. split; [reflexivity|].
  exact (ring_counts_mod4 ri ro fp fp' H0 E E').
Qed.

Lemma ring_count_mod_4_witness :
  exists fp fp',
    _ring 2 5 false = inr fp /\ _ring 2 5 true = inr fp' /\
    (count_nonzero fp mod 4 = 0)%nat /\ (count_nonzero fp' mod 4 = 1)%nat.
Proof. apply (ring_count_mod_4 2 5); discriminate. Defined.

(** ** What a successful call returns *)

Lemma wf_length (a : ndarray) (h w : nat) :
  shape a = [h; w] -> well_formed a -> length (data a) = (h * w)%nat.
Proof.
  intros Hs Hwf. unfold well_formed, size in Hwf. rewrite Hs in Hwf.
  simpl in Hwf. lia.
Qed.

Lemma median_filter_empty_footprint (image fp : ndarray) m cval :
  count_nonzero fp = 0%nat ->
  exists msg, median_filter image fp m cval = inl (RuntimeError msg).
Proof.
  intros HK. unfold median_filter. rewrite HK.
  destruct (negb _); eexists; reflexivity.
Qed.

Lemma rmedian_success (image : ndarray) (h w : nat) (ri ro : Q) (inv : bool)
  (out : ndarray) :
  shape image = [h; w] -> rmedian image ri ro inv = inr out ->
  exists fp, _ring ri ro inv = inr fp /\ (0 < count_nonzero fp)%nat /\
    out = rank_filter2 image h w (count_nonzero fp / 2) fp
            (side ro) (side ro) reflect 0.
Proof.
  intros Hs Hout.
  destruct (_ring ri ro inv) as [e|fp] eqn:Hfp;
    [unfold rmedian in Hout; rewrite Hfp in Hout; discriminate|].
  exists fp. split; [reflexivity|].
  destruct (Nat.eq_dec (count_nonzero fp) 0) as [HK|HK].
  - exfalso. unfold rmedian in Hout. rewrite Hfp in Hout.
    destruct (median_filter_empty_footprint image fp reflect 0 HK) as [msg E].
    rewrite E in Hout. discriminate.
  - assert (HK' : (0 < count_nonzero fp)%nat) by lia.
    split; [exact HK'|].
    rewrite (rmedian_unfold image h w ri ro inv fp Hs Hfp HK') in Hout.
    symmetry. exact (inr_eq _ _ Hout).
Qed.

Lemma pixel_reflect_in (image : ndarray) (h w : nat) (i j : Z) :
  length (data image) = (h * w)%nat -> (0 < h)%nat -> (0 < w)%nat ->
  exists k, (k < h * w)%nat /\
    pixel reflect 0 image h w i j = nth k (data image) 0.
Proof.
  intros Hl Hh Hw. unfold pixel.
  destruct (extend_reflect_range (Z.of_nat h) i ltac:(lia)) as (i' & -> & Hi).
  destruct (extend_reflect_range (Z.of_nat w) j ltac:(lia)) as (j' & -> & Hj).
  exists (Z.to_nat i' * w + Z.to_nat j')%nat. split; [nia|reflexivity].
Qed.

(** The filter invents no value.  On a well-formed two-dimensional image,
    every pixel of the array [rmedian] returns is the value of some pixel
    of the input; in particular it lies between the minimum and the maximum
    of the input. *)
Theorem rmedian_values_from_input (image : ndarray) (h w : nat)
  (ri ro : Q) (inv : bool) (out : ndarray) :
  shape image = [h; w] -> well_formed image ->
  rmedian image ri ro inv = inr out ->
  forall i j : nat, (i < h)%nat -> (j < w)%nat ->
    In (item2 out i j) (data image) /\
    forall lo hi : Z,
      (forall v, In v (data image) -> lo <= v <= hi) ->
      lo <= item2 out i j <= hi.
Proof.
  intros Hs Hwf Hout i j Hi Hj.
  destruct (rmedian_success image h w ri ro inv out Hs Hout)
    as (fp & Hfp & HK & ->).
  pose proof (wf_length image h w Hs Hwf) as Hl.
  assert (Hin : In (item2 (rank_filter2 image h w (count_nonzero fp / 2) fp
                             (side ro) (side ro) reflect 0) i j)
                   (data image)).
  { rewrite rank_filter2_item2 by assumption.
    rewrite (offsets_selected ri ro inv fp Hfp).
    unfold window.
    match goal with
    | |- In (select ?k ?l) _ => assert (Hsel : In (select k l) l)
    end.
    { apply select_In.
      rewrite length_map, (length_selected ri ro inv fp Hfp).
      apply Nat.div_lt; lia. }
    apply in_map_iff in Hsel as (d & Hd & _). rewrite <- Hd.
    destruct (pixel_reflect_in image h w (Z.of_nat i + fst d)
                (Z.of_nat j + snd d) Hl) as (k & Hk & ->); [lia|lia|].
    apply nth_In. now rewrite Hl. }
  split; [exact Hin|]. intros lo hi Hb. now apply Hb.
Qed.

Lemma rmedian_values_from_input_witness :
  In (item2 (mk_ndarray [2; 3]%nat [2; 3; 3; 4; 5; 6]) 1 2)
     [1; 2; 3; 4; 5; 6].
Proof.
  apply (rmedian_values_from_input
           (mk_ndarray [2; 3]%nat [1; 2; 3; 4; 5; 6]) 2 3 0 1 false
           (mk_ndarray [2; 3]%nat [2; 3; 3; 4; 5; 6]));
    try reflexivity; lia.
Defined.

(** ** Rings that always, or never, filter *)

Lemma median_filter_rank_error (image fp : ndarray) (h w n : nat) m cval :
  shape image = [h; w] -> shape fp = [n; n] -> (0 < n)%nat ->
  count_nonzero fp = 0%nat ->
  median_filter image fp m cval
  = inl (RuntimeError "rank not within filter footprint size").
Proof.
  intros Hs Hfs Hn HK. unfold median_filter, ndim.
  rewrite Hs, Hfs, HK. cbn [filter].
  assert (E : (0 <? n)%nat = true) by now apply Nat.ltb_lt.
  rewrite E. reflexivity.
Qed.

Lemma ring_equal_radii_count (r : Q) (fp : ndarray) :
  _ring r r false = inr fp -> count_nonzero fp = 0%nat.
Proof.
  intros Hfp. rewrite (ring_unfold r r false (Qle_refl r)) in Hfp.
  apply inr_eq in Hfp. subst fp.
  apply count_nonzero_zeros. cbn [data]. apply Forall_outer.
  intros. now rewrite in_annulus_degenerate.
Qed.

Lemma ring_integer_count (a b : Z) (fp : ndarray) :
  0 <= a -> a < b ->
  _ring (inject_Z a) (inject_Z b) false = inr fp ->
  (0 < count_nonzero fp)%nat.
Proof.
  intros H0 Hab Hfp.
  assert (Hc : cell_at fp (inject_Z b) 0 b = 1).
  { rewrite (cell_at_ring (inject_Z a) (inject_Z b) false fp 0 b Hfp)
      by (rewrite int_inject_Z; lia).
    cbn [xorb]. apply astype_1.
    now apply in_annulus_outer_cell. }
  unfold cell_at in Hc.
  destruct (ring_shape _ _ _ _ Hfp) as [Hs _].
  rewrite (item2_nth _ _ _ _ _ Hs) in Hc.
  eapply count_nonzero_pos. rewrite Hc. discriminate.
Qed.

(** Integer radii.  On a two-dimensional image and for integers
    [0 <= a <= b], [rmedian(data, a, b)] returns an array exactly when
    [a < b]; with [a = b] it raises the rank error of [median_filter]. *)
Theorem rmedian_integer_radii (image : ndarray) (h w : nat) (a b : Z) :
  shape image = [h; w] -> 0 <= a -> a <= b ->
  ((exists out, rmedian image (inject_Z a) (inject_Z b) false = inr out)
   <-> a < b) /\
  (a = b ->
   rmedian image (inject_Z a) (inject_Z b) false
   = inl (RuntimeError "rank not within filter footprint size")).
Proof.
  intros Hs H0 Hab.
  assert (Hle : (inject_Z a <= inject_Z b)%Q) by (rewrite <- Zle_Qle; exact Hab).
  pose proof (ring_unfold (inject_Z a) (inject_Z b) false Hle) as Hfp.
  destruct (_ring (inject_Z a) (inject_Z b) false) as [e|fp] eqn:E;
    [discriminate|]. clear Hfp.
  destruct (ring_shape _ _ _ _ E) as [Hfs _].
  assert (Hside : (0 < side (inject_Z b))%nat)
    by (unfold side; rewrite int_inject_Z; lia).
  assert (Heq : a = b ->
            rmedian image (inject_Z a) (inject_Z b) false
            = inl (RuntimeError "rank not within filter footprint size")).
  { intros ->. unfold rmedian. rewrite E.
    apply (median_filter_rank_error image fp h w _ reflect 0 Hs Hfs Hside).
    exact (ring_equal_radii_count _ fp E). }
  split; [|exact Heq]. split.
  - intros [out Hout]. destruct (Z.eq_dec a b) as [Hab'|Hab']; [|lia].
    rewrite (Heq Hab') in Hout. discriminate.
  - intros Hlt. eexists.
    apply (rmedian_unfold image h w _ _ false fp Hs E).
    exact (ring_integer_count a b fp H0 Hlt E).
Qed.

Lemma rmedian_integer_radii_witness :
  rmedian (mk_ndarray [1; 2]%nat [4; 9]) 3 3 false
  = inl (RuntimeError "rank not within filter footprint size").
Proof.
  destruct (rmedian_integer_radii (mk_ndarray [1; 2]%nat [4; 9]) 1 2 3 3)
    as [_ H]; [reflexivity|lia|lia|].
  apply H. reflexivity.
Defined.

(** The inverted ring.  For [0 <= r_inner <= r_outer] and [invert=True],
    [rmedian] never raises on a two-dimensional image: the centre cell is
    always selected.  The number [K] of selected pixels is odd, and every
    output pixel is the middle value of its [K] selected pixels, the median
    in the sense of [np.median]. *)
Theorem rmedian_inverted_midpoint (image : ndarray) (h w : nat) (ri ro : Q) :
  shape image = [h; w] -> (0 <= ri)%Q -> (ri <= ro)%Q ->
  exists fp out,
    _ring ri ro true = inr fp /\ rmedian image ri ro true = inr out /\
    shape out = shape image /\
    (count_nonzero fp mod 2 = 1)%nat /\
    forall i j : nat, (i < h)%nat -> (j < w)%nat ->
      is_midpoint_median (window reflect 0 image h w (selected fp ro) i j)
                         (item2 out i j).
Proof.
  intros Hs H0 Hle.
  pose proof (ring_unfold ri ro false Hle) as Hfp0.
  pose proof (ring_unfold ri ro true Hle) as Hfp.
  destruct (_ring ri ro false) as [e|fp0] eqn:E0; [discriminate|].
  destruct (_ring ri ro true) as [e|fp] eqn:E; [discriminate|].
  clear Hfp0 Hfp.
  destruct (ring_counts_mod4 ri ro fp0 fp H0 E0 E) as [_ Hmod].
  assert (HK : (0 < count_nonzero fp)%nat)
    by (destruct (count_nonzero fp); [discriminate|lia]).
  assert (Hodd : (count_nonzero fp mod 2 = 1)%nat).
  { pose proof (Nat.div_mod_eq (count_nonzero fp) 4) as H4.
    rewrite Hmod in H4. rewrite H4.
    replace (4 * (count_nonzero fp / 4) + 1)%nat
      with (1 + (2 * (count_nonzero fp / 4)) * 2)%nat by lia.
    now rewrite Nat.Div0.mod_add. }
  exists fp. eexists.
  split; [reflexivity|].
  split; [exact (rmedian_unfold image h w ri ro true fp Hs E HK)|].
  split; [now rewrite Hs|]. split; [exact Hodd|].
  intros i j Hi Hj. unfold is_midpoint_median.
  rewrite rank_filter2_item2 by assumption.
  rewrite (offsets_selected ri ro true fp E).
  set (win := window reflect 0 image h w (selected fp ro) i j).
  assert (Hwl : length win = count_nonzero fp)
    by (unfold win, window;
        now rewrite length_map, (length_selected ri ro true fp E)).
  rewrite Hwl. unfold select.
  pose proof (Nat.div_mod_eq (count_nonzero fp) 2) as H2.
  rewrite Hodd in H2.
  replace ((count_nonzero fp - 1) / 2)%nat with (count_nonzero fp / 2)%nat.
  - lia.
  - rewrite H2 at 2.
    replace (2 * (count_nonzero fp / 2) + 1 - 1)%nat
      with ((count_nonzero fp / 2) * 2)%nat by lia.
    now rewrite Nat.div_mul.
Qed.

Lemma rmedian_inverted_midpoint_witness :
  exists fp out,
    _ring 1 2 true = inr fp /\
    rmedian (mk_ndarray [2; 2]%nat [5; 1; 4; 8]) 1 2 true = inr out /\
    (count_nonzero fp mod 2 = 1)%nat.
Proof.
  destruct (rmedian_inverted_midpoint (mk_ndarray [2; 2]%nat [5; 1; 4; 8])
              2 2 1 2) as (fp & out & H1 & H2 & _ & H3 & _).
  - reflexivity.
  - discriminate.
  - discriminate.
  - exists fp, out. repeat split; assumption.
Defined.

(** ** Away from the edges *)

Lemma window_interior (image : ndarray) (h w : nat) (fp : ndarray) (ro : Q)
  (m : extend_mode) (cval : Z) (i j : nat) :
  shape image = [h; w] ->
  int ro <= Z.of_nat i -> Z.of_nat i + int ro < Z.of_nat h ->
  int ro <= Z.of_nat j -> Z.of_nat j + int ro < Z.of_nat w ->
  window m cval image h w (selected fp ro) i j
  = map (fun d : Z * Z =>
           item2 image (Z.to_nat (Z.of_nat i + fst d))
                       (Z.to_nat (Z.of_nat j + snd d)))
        (selected fp ro).
Proof.
  intros Hs Hi1 Hi2 Hj1 Hj2. unfold window.
  apply map_ext_in. intros [a b] Hd.
  apply in_selected in Hd as (Ha & Hb & _). cbn [fst snd].
  rewrite <- (pixel_inside m cval image h w) by (try assumption; lia).
  now rewrite !Z2Nat.id by lia.
Qed.

(** No boundary effect in the interior.  At a pixel [(i, j)] at least
    [int r_outer] pixels away from every edge, the output of [rmedian] is
    the rank-[K/2] element of the input pixels [data[i + a, j + b]]
    themselves, [(a, b)] ranging over the offsets of the 1-cells: the
    boundary mode plays no part. *)
Theorem rmedian_interior (image : ndarray) (h w : nat) (ri ro : Q)
  (inv : bool) (fp out : ndarray) (i j : nat) :
  shape image = [h; w] -> _ring ri ro inv = inr fp ->
  rmedian image ri ro inv = inr out ->
  int ro <= Z.of_nat i -> Z.of_nat i + int ro < Z.of_nat h ->
  int ro <= Z.of_nat j -> Z.of_nat j + int ro < Z.of_nat w ->
  item2 out i j
  = select (count_nonzero fp / 2)
      (map (fun d : Z * Z =>
              item2 image (Z.to_nat (Z.of_nat i + fst d))
                          (Z.to_nat (Z.of_nat j + snd d)))
           (selected fp ro)).
Proof.
  intros Hs Hfp Hout Hi1 Hi2 Hj1 Hj2.
  destruct (rmedian_success image h w ri ro inv out Hs Hout)
    as (fp' & Hfp' & HK & ->).
  rewrite Hfp in Hfp'. apply inr_eq in Hfp'. subst fp'.
  assert (0 <= int ro \/ int ro < 0) as [Hro|Hro] by lia.
  - rewrite rank_filter2_item2 by lia.
    rewrite (offsets_selected ri ro inv fp Hfp).
    now rewrite (window_interior image h w fp ro reflect 0 i j Hs).
  - exfalso. destruct (ring_shape _ _ _ _ Hfp) as [_ Hl].
    pose proof (count_nonzero_le fp) as Hle.
    unfold side in Hl. replace (Z.to_nat (2 * int ro + 1)) with 0%nat in Hl by lia.
    lia.
Qed.

Lemma rmedian_interior_witness :
  item2 (mk_ndarray [3; 3]%nat [1; 0; 1; 0; 3; 0; 2; 0; 3]) 1 1 = 3.
Proof.
  rewrite (rmedian_interior
             (mk_ndarray [3; 3]%nat [0; 1; 0; 2; 0; 3; 0; 4; 0]) 3 3 0 1 false
             (mk_ndarray [3; 3]%nat [0; 1; 0; 1; 0; 1; 0; 1; 0])
             (mk_ndarray [3; 3]%nat [1; 0; 1; 0; 3; 0; 2; 0; 3]) 1 1);
    try reflexivity; vm_compute; congruence.
Defined.

(** The ring leaves out the pixel itself.  With a plain ring,
    [r_inner >= 0], the output at an interior pixel [(i, j)] does not
    depend on the input at [(i, j)]: two images that differ only there
    give the same output there. *)
Theorem rmedian_ignores_own_pixel (image image' : ndarray) (h w : nat)
  (ri ro : Q) (out out' : ndarray) (i j : nat) :
  shape image = [h; w] -> shape image' = [h; w] -> (0 <= ri)%Q ->
  (forall k, k <> (i * w + j)%nat ->
     nth k (data image) 0 = nth k (data image') 0) ->
  rmedian image ri ro false = inr out ->
  rmedian image' ri ro false = inr out' ->
  int ro <= Z.of_nat i -> Z.of_nat i + int ro < Z.of_nat h ->
  int ro <= Z.of_nat j -> Z.of_nat j + int ro < Z.of_nat w ->
  item2 out i j = item2 out' i j.
Proof.
  intros Hs Hs' H0 Hdiff Hout Hout' Hi1 Hi2 Hj1 Hj2.
  destruct (rmedian_success image h w ri ro false out Hs Hout)
    as (fp & Hfp & HK & ->).
  destruct (rmedian_success image' h w ri ro false out' Hs' Hout')
    as (fp' & Hfp' & _ & ->).
  rewrite Hfp in Hfp'. apply inr_eq in Hfp'. subst fp'.
  assert (Hro : 0 <= int ro).
  { assert (0 <= int ro \/ int ro < 0) as [Hro|Hro] by lia; [exact Hro|].
    exfalso. destruct (ring_shape _ _ _ _ Hfp) as [_ Hl].
    pose proof (count_nonzero_le fp) as Hle.
    unfold side in Hl.
    replace (Z.to_nat (2 * int ro + 1)) with 0%nat in Hl by lia. lia. }
  rewrite !rank_filter2_item2 by lia.
  rewrite (offsets_selected ri ro false fp Hfp).
  rewrite (window_interior image h w fp ro reflect 0 i j Hs) by assumption.
  rewrite (window_interior image' h w fp ro reflect 0 i j Hs') by assumption.
  f_equal. apply map_ext_in. intros [a b] Hd. cbn [fst snd].
  apply in_selected in Hd as (Ha & Hb & Hc).
  rewrite (item2_nth image h w _ _ Hs), (item2_nth image' h w _ _ Hs').
  apply Hdiff. intros E.
  assert (Hab : a = 0 /\ b = 0).
  { assert (E' : (Z.of_nat i + a) * Z.of_nat w + (Z.of_nat j + b)
                 = Z.of_nat i * Z.of_nat w + Z.of_nat j).
    { apply (f_equal Z.of_nat) in E.
      rewrite !Nat2Z.inj_add, !Nat2Z.inj_mul, !Z2Nat.id in E by lia.
      exact E. }
    assert (a = 0) by nia. split; [assumption|nia]. }
  destruct Hab as [-> ->].
  rewrite (cell_at_ring ri ro false fp 0 0 Hfp) in Hc by lia.
  cbn [xorb Z.mul Z.add] in Hc.
  rewrite (centre_not_in_annulus ri ro H0) in Hc. discriminate.
Qed.

Lemma rmedian_ignores_own_pixel_witness :
  item2 (mk_ndarray [3; 3]%nat [1; 0; 1; 0; 3; 0; 2; 0; 3]) 1 1
  = item2 (mk_ndarray [3; 3]%nat [1; 1; 1; 2; 3; 3; 2; 4; 3]) 1 1.
Proof.
  apply (rmedian_ignores_own_pixel
           (mk_ndarray [3; 3]%nat [0; 1; 0; 2; 0; 3; 0; 4; 0])
           (mk_ndarray [3; 3]%nat [0; 1; 0; 2; 99; 3; 0; 4; 0])
           3 3 0 1); try reflexivity; try discriminate;
    try (vm_compute; congruence).
  intros k Hk.
  do 9 (destruct k as [|k]; [try reflexivity; exfalso; apply Hk; reflexivity|]).
  destruct k; reflexivity.
Defined.

(** ** Order and offsets of the input *)

Lemma pixel_reflect_index (h w : nat) (i j : Z) :
  (0 < h)%nat -> (0 < w)%nat ->
  exists k, (k < h * w)%nat /\
    forall image, pixel reflect 0 image h w i j = nth k (data image) 0.
Proof.
  intros Hh Hw.
  destruct (extend_reflect_range (Z.of_nat h) i ltac:(lia)) as (i' & Ei & Hi).
  destruct (extend_reflect_range (Z.of_nat w) j ltac:(lia)) as (j' & Ej & Hj).
  exists (Z.to_nat i' * w + Z.to_nat j')%nat. split; [nia|].
  intros image. unfold pixel. now rewrite Ei, Ej.
Qed.

Lemma count_none (p : Z -> bool) (l : list Z) :
  (forall x, In x l -> p x = false) -> count p l = 0%nat.
Proof.
  unfold count. induction l as [|x t IH]; intros H; simpl; [reflexivity|].
  rewrite (H x) by now left. apply IH. intros y Hy. apply H. now right.
Qed.

Lemma count_le_length (p : Z -> bool) (l : list Z) :
  (count p l <= length l)%nat.
Proof. apply filter_length_le. Qed.

Lemma count_split (p : Z -> bool) (n : nat) (l : list Z) :
  count p l = (count p (firstn n l) + count p (skipn n l))%nat.
Proof. now rewrite <- count_app, firstn_skipn. Qed.

Lemma count_sorted_upto (s : list Z) (k : nat) :
  StronglySorted Z.le s -> (k < length s)%nat ->
  (S k <= count (fun x => Z.leb x (nth k s 0%Z)) s)%nat.
Proof.
  intros Hs Hk.
  rewrite (count_split _ (S k) s).
  rewrite count_all.
  - rewrite length_firstn. lia.
  - intros x Hx. apply (In_nth _ _ 0) in Hx as (i & Hi & <-).
    rewrite length_firstn in Hi. rewrite nth_firstn.
    assert (E : (i <? S k)%nat = true) by (apply Nat.ltb_lt; lia).
    rewrite E. apply Z.leb_le. apply sorted_nth_le; try assumption; lia.
Qed.

Lemma count_sorted_below (s : list Z) (k : nat) (v : Z) :
  StronglySorted Z.le s -> (k < length s)%nat -> v < nth k s 0 ->
  (count (fun x => Z.leb x v) s <= k)%nat.
Proof.
  intros Hs Hk Hv.
  rewrite (count_split _ k s).
  rewrite (count_none _ (skipn k s)).
  - pose proof (count_le_length (fun x => x <=? v) (firstn k s)) as H.
    rewrite length_firstn in H. lia.
  - intros x Hx. apply (In_nth _ _ 0) in Hx as (i & Hi & <-).
    rewrite length_skipn in Hi. rewrite nth_skipn.
    apply Z.leb_gt.
    assert (nth k s 0 <= nth (k + i) s 0)
      by (apply sorted_nth_le; try assumption; lia).
    lia.
Qed.

Lemma count_le_mono (v : Z) (l1 l2 : list Z) :
  Forall2 Z.le l1 l2 ->
  (count (fun x => Z.leb x v) l2 <= count (fun x => Z.leb x v) l1)%nat.
Proof.
  unfold count. induction 1 as [|x y l1 l2 Hxy _ IH]; simpl; [lia|].
  destruct (y <=? v) eqn:Ey.
  - apply Z.leb_le in Ey.
    assert (Ex : (x <=? v) = true) by (apply Z.leb_le; lia).
    rewrite Ex. simpl. lia.
  - destruct (x <=? v); simpl; lia.
Qed.

Lemma select_monotone (k : nat) (l1 l2 : list Z) :
  Forall2 Z.le l1 l2 -> (k < length l1)%nat -> select k l1 <= select k l2.
Proof.
  intros H12 Hk. unfold select.
  pose proof (Forall2_length H12) as Hlen.
  destruct (Z.le_gt_cases (nth k (sort l1) 0) (nth k (sort l2) 0))
    as [H|H]; [exact H|exfalso].
  pose proof (count_sorted_below (sort l1) k _ (sort_sorted l1)
                ltac:(rewrite length_sort; lia) H) as H1.
  pose proof (count_sorted_upto (sort l2) k (sort_sorted l2)
                ltac:(rewrite length_sort; lia)) as H2.
  rewrite <- (count_perm _ l1 (sort l1)) in H1 by apply sort_perm.
  rewrite <- (count_perm _ l2 (sort l2)) in H2 by apply sort_perm.
  pose proof (count_le_mono (nth k (sort l2) 0) l1 l2 H12). lia.
Qed.

Lemma Forall2_map_same {A : Type} (R : Z -> Z -> Prop) (f g : A -> Z)
  (l : list A) :
  (forall x, In x l -> R (f x) (g x)) -> Forall2 R (map f l) (map g l).
Proof.
  induction l as [|x l IH]; intros H; simpl; constructor.
  - apply H. now left.
  - apply IH. intros y Hy. apply H. now right.
Qed.

Lemma Forall2_le_nth (l1 l2 : list Z) (k : nat) :
  Forall2 Z.le l1 l2 -> (k < length l1)%nat -> nth k l1 0 <= nth k l2 0.
Proof.
  intros H. revert k. induction H as [|x y l1 l2 Hxy _ IH]; intros k Hk;
    simpl in Hk; [lia|].
  destruct k as [|k]; simpl; [exact Hxy|]. apply IH. lia.
Qed.

(** The filter preserves order.  If one well-formed image is pixel by
    pixel at most another of the same shape, then the output of [rmedian]
    on the first is pixel by pixel at most its output on the second. *)
Theorem rmedian_monotone (image image' : ndarray) (h w : nat)
  (ri ro : Q) (inv : bool) (out out' : ndarray) :
  shape image = [h; w] -> shape image' = [h; w] ->
  well_formed image -> well_formed image' ->
  Forall2 Z.le (data image) (data image') ->
  rmedian image ri ro inv = inr out ->
  rmedian image' ri ro inv = inr out' ->
  forall i j : nat, (i < h)%nat -> (j < w)%nat ->
    item2 out i j <= item2 out' i j.
Proof.
  intros Hs Hs' Hwf Hwf' Hle Hout Hout' i j Hi Hj.
  destruct (rmedian_success image h w ri ro inv out Hs Hout)
    as (fp & Hfp & HK & ->).
  destruct (rmedian_success image' h w ri ro inv out' Hs' Hout')
    as (fp' & Hfp' & _ & ->).
  rewrite Hfp in Hfp'. apply inr_eq in Hfp'. subst fp'.
  pose proof (wf_length image h w Hs Hwf) as Hl.
  rewrite !rank_filter2_item2 by assumption.
  apply select_monotone.
  - unfold window. apply Forall2_map_same. intros d _.
    destruct (pixel_reflect_index h w (Z.of_nat i + fst d)
                (Z.of_nat j + snd d)) as (k & Hk & Hpix); [lia|lia|].
    rewrite !Hpix. apply Forall2_le_nth; [exact Hle|]. now rewrite Hl.
  - unfold window.
    rewrite length_map, (offsets_selected ri ro inv fp Hfp).
    rewrite (length_selected ri ro inv fp Hfp).
    apply Nat.div_lt; lia.
Qed.

Lemma rmedian_monotone_witness :
  item2 (mk_ndarray [2; 3]%nat [2; 3; 3; 4; 5; 6]) 1 0
  <= item2 (mk_ndarray [2; 3]%nat [2; 3; 3; 7; 7; 7]) 1 0.
Proof.
  apply (rmedian_monotone
           (mk_ndarray [2; 3]%nat [1; 2; 3; 4; 5; 6])
           (mk_ndarray [2; 3]%nat [1; 2; 3; 7; 7; 7]) 2 3 0 1 false
           (mk_ndarray [2; 3]%nat [2; 3; 3; 4; 5; 6])
           (mk_ndarray [2; 3]%nat [2; 3; 3; 7; 7; 7]));
    try reflexivity; try lia.
  repeat constructor; lia.
Defined.

(** ** Transposing the image *)

Lemma sorted_perm_eq (l l' : list Z) :
  StronglySorted Z.le l -> StronglySorted Z.le l' -> Permutation l l' ->
  l = l'.
Proof.
  intros Hs. revert l'.
  induction Hs as [|x t Ht IH Hx]; intros l' Hs' P.
  - apply Permutation_nil in P. now subst.
  - destruct Hs' as [|y t' Ht' Hy].
    + apply Permutation_sym, Permutation_nil in P. discriminate.
    + assert (Hxy : x = y).
      { assert (Hin : In x (y :: t'))
          by (apply (Permutation_in _ P); now left).
        assert (Hin' : In y (x :: t))
          by (apply (Permutation_in _ (Permutation_sym P)); now left).
        rewrite Forall_forall in Hx, Hy.
        destruct Hin as [->|Hin]; [reflexivity|].
        destruct Hin' as [->|Hin']; [reflexivity|].
        apply Hy in Hin. apply Hx in Hin'. lia. }
      subst y. f_equal. apply IH; [exact Ht'|].
      now apply Permutation_cons_inv in P.
Qed.

Lemma select_perm (k : nat) (l l' : list Z) :
  Permutation l l' -> select k l = select k l'.
Proof.
  intros P. unfold select. f_equal.
  apply sorted_perm_eq; try apply sort_sorted.
  rewrite <- (sort_perm l), <- (sort_perm l'). exact P.
Qed.

Lemma selected_swap_perm (ri ro : Q) (inv : bool) (fp : ndarray) :
  _ring ri ro inv = inr fp ->
  Permutation (selected fp ro)
              (map (fun d : Z * Z => (snd d, fst d)) (selected fp ro)).
Proof.
  intros Hfp.
  assert (Hsym : forall a b,
             In (a, b) (selected fp ro) -> In (b, a) (selected fp ro)).
  { intros a b H. apply in_selected in H as (Ha & Hb & Hc).
    apply in_selected. split; [exact Hb|]. split; [exact Ha|].
    rewrite (cell_at_ring ri ro inv fp) in * by assumption.
    rewrite <- Hc. do 3 f_equal. ring. }
  apply NoDup_Permutation.
  - apply NoDup_selected.
  - apply NoDup_map_NoDup_ForallPairs; [|apply NoDup_selected].
    intros [a b] [c d] _ _ E. cbn in E. injection E as -> ->. reflexivity.
  - intros [a b]. rewrite in_map_iff. split.
    + intros H. exists (b, a). split; [reflexivity|now apply Hsym].
    + intros ([c d] & E & H). cbn in E. injection E as <- <-.
      now apply Hsym.
Qed.

Lemma transpose_unfold (a : ndarray) (h w : nat) :
  shape a = [h; w] ->
  transpose a
  = mk_ndarray [w; h]
      (outer (fun j i => item2 a i j) (seq 0 w) (seq 0 h)).
Proof. intros Hs. unfold transpose. now rewrite Hs. Qed.

Lemma pixel_transpose (image : ndarray) (h w : nat) (x y : Z) :
  shape image = [h; w] -> (0 < h)%nat -> (0 < w)%nat ->
  pixel reflect 0 (transpose image) w h x y = pixel reflect 0 image h w y x.
Proof.
  intros Hs Hh Hw. unfold pixel.
  destruct (extend_reflect_range (Z.of_nat w) x ltac:(lia)) as (x' & -> & Hx).
  destruct (extend_reflect_range (Z.of_nat h) y ltac:(lia)) as (y' & -> & Hy).
  rewrite (transpose_unfold image h w Hs). cbn [data].
  rewrite <- (length_seq h 0) at 1.
  rewrite (nth_outer _ _ _ (Z.to_nat x') (Z.to_nat y') 0%nat 0%nat)
    by (rewrite length_seq; lia).
  rewrite !seq_nth by lia. cbn [Nat.add].
  now apply item2_nth with (h := h).
Qed.

(** The filter commutes with transposition.  If [rmedian] returns [out]
    on a two-dimensional image, then on the transposed image it returns
    the transpose of [out]: the ring treats rows and columns alike. *)
Theorem rmedian_transpose (image : ndarray) (h w : nat) (ri ro : Q)
  (inv : bool) (out : ndarray) :
  shape image = [h; w] ->
  rmedian image ri ro inv = inr out ->
  rmedian (transpose image) ri ro inv = inr (transpose out).
Proof.
  intros Hs Hout.
  destruct (rmedian_success image h w ri ro inv out Hs Hout)
    as (fp & Hfp & HK & ->).
  assert (HsT : shape (transpose image) = [w; h])
    by now rewrite (transpose_unfold image h w Hs).
  rewrite (rmedian_unfold (transpose image) w h ri ro inv fp HsT Hfp HK).
  f_equal.
  rewrite (transpose_unfold (rank_filter2 image h w _ fp _ _ reflect 0) h w)
    by reflexivity.
  unfold rank_filter2 at 1. f_equal.
  apply outer_ext_in. intros x y Hx Hy. apply in_seq in Hx, Hy.
  rewrite rank_filter2_item2 by lia.
  rewrite (offsets_selected ri ro inv fp Hfp).
  unfold window.
  rewrite (select_perm _ _ _
             (Permutation_map _ (selected_swap_perm ri ro inv fp Hfp))).
  rewrite map_map. cbn [fst snd]. f_equal.
  apply map_ext. intros d. apply pixel_transpose; [exact Hs|lia|lia].
Qed.

Lemma rmedian_transpose_witness :
  rmedian (transpose (mk_ndarray [2; 3]%nat [1; 2; 3; 4; 5; 6])) 0 1 false
  = inr (transpose (mk_ndarray [2; 3]%nat [2; 3; 3; 4; 5; 6])).
Proof.
  apply (rmedian_transpose (mk_ndarray [2; 3]%nat [1; 2; 3; 4; 5; 6]) 2 3);
    reflexivity.
Defined.

(** ** Flipping the image *)

Lemma extend_reflect_flip (n k : Z) :
  0 < n ->
  exists k', extend reflect n k = Some k' /\ 0 <= k' < n /\
             extend reflect n (n - 1 - k) = Some (n - 1 - k').
Proof.
  intros Hn. unfold extend.
  destruct ((0 <=? k) && (k <? n)) eqn:E.
  - apply andb_true_iff in E as [E1 E2].
    apply Z.leb_le in E1. apply Z.ltb_lt in E2.
    assert (E' : (0 <=? n - 1 - k) && (n - 1 - k <? n) = true)
      by (apply andb_true_iff; split; [apply Z.leb_le|apply Z.ltb_lt]; lia).
    rewrite E'. exists k. repeat split; lia.
  - assert (Hout : k < 0 \/ n <= k).
    { apply andb_false_iff in E as [E|E];
        [apply Z.leb_gt in E|apply Z.ltb_ge in E]; lia. }
    assert (E' : (0 <=? n - 1 - k) && (n - 1 - k <? n) = false).
    { apply andb_false_iff. destruct Hout;
        [right; apply Z.ltb_ge|left; apply Z.leb_gt]; lia. }
    rewrite E'.
    pose proof (Z.mod_pos_bound k (2 * n) ltac:(lia)) as Hm.
    pose proof (Z.div_mod k (2 * n) ltac:(lia)) as Hk.
    set (m := k mod (2 * n)) in *. set (q := k / (2 * n)) in *.
    destruct (m <? n) eqn:Em.
    + apply Z.ltb_lt in Em.
      assert (Hm' : (n - 1 - k) mod (2 * n) = n - 1 - m)
        by (symmetry; apply (Z.mod_unique _ _ (- q)); lia).
      rewrite Hm'.
      assert (E2 : (n - 1 - m <? n) = true) by (apply Z.ltb_lt; lia).
      rewrite E2. exists m. repeat split; lia.
    + apply Z.ltb_ge in Em.
      assert (Hm' : (n - 1 - k) mod (2 * n) = 3 * n - 1 - m)
        by (symmetry; apply (Z.mod_unique _ _ (- q - 1)); lia).
      rewrite Hm'.
      assert (E2 : (3 * n - 1 - m <? n) = false) by (apply Z.ltb_ge; lia).
      rewrite E2. exists (2 * n - 1 - m).
      split; [reflexivity|]. split; [lia|]. f_equal. lia.
Qed.

Lemma flipud_unfold (a : ndarray) (h w : nat) :
  shape a = [h; w] ->
  flipud a
  = mk_ndarray [h; w]
      (outer (fun i j => item2 a (h - 1 - i) j) (seq 0 h) (seq 0 w)).
Proof. intros Hs. unfold flipud. now rewrite Hs. Qed.

Lemma pixel_flipud (image : ndarray) (h w : nat) (x y : Z) :
  shape image = [h; w] -> (0 < h)%nat -> (0 < w)%nat ->
  pixel reflect 0 (flipud image) h w x y
  = pixel reflect 0 image h w (Z.of_nat h - 1 - x) y.
Proof.
  intros Hs Hh Hw. unfold pixel.
  destruct (extend_reflect_flip (Z.of_nat h) x ltac:(lia))
    as (x' & -> & Hx & ->).
  destruct (extend_reflect_range (Z.of_nat w) y ltac:(lia)) as (y' & -> & Hy).
  rewrite (flipud_unfold image h w Hs). cbn [data].
  rewrite <- (length_seq w 0) at 1.
  rewrite (nth_outer _ _ _ (Z.to_nat x') (Z.to_nat y') 0%nat 0%nat)
    by (rewrite length_seq; lia).
  rewrite !seq_nth by lia. cbn [Nat.add].
  rewrite (item2_nth image h w _ _ Hs). do 2 f_equal. lia.
Qed.

Lemma selected_negate_perm (ri ro : Q) (inv : bool) (fp : ndarray) :
  _ring ri ro inv = inr fp ->
  Permutation (selected fp ro)
              (map (fun d : Z * Z => (- fst d, snd d)) (selected fp ro)).
Proof.
  intros Hfp.
  assert (Hsym : forall a b,
             In (a, b) (selected fp ro) -> In (- a, b) (selected fp ro)).
  { intros a b H. apply in_selected in H as (Ha & Hb & Hc).
    apply in_selected. split; [lia|]. split; [exact Hb|].
    rewrite (cell_at_ring ri ro inv fp) in * by (try assumption; lia).
    rewrite <- Hc. do 3 f_equal. ring. }
  apply NoDup_Permutation.
  - apply NoDup_selected.
  - apply NoDup_map_NoDup_ForallPairs; [|apply NoDup_selected].
    intros [a b] [c d] _ _ E. cbn in E. injection E as E1 E2.
    f_equal; lia.
  - intros [a b]. rewrite in_map_iff. split.
    + intros H. exists (- a, b). cbn [fst snd]. split.
      * now rewrite Z.opp_involutive.
      * now apply Hsym.
    + intros ([c d] & E & H). cbn in E. injection E as <- <-.
      now apply Hsym.
Qed.

(** The filter commutes with an upside-down flip.  If [rmedian] returns
    [out] on a two-dimensional image, then on [np.flipud] of the image it
    returns [np.flipud] of [out]. *)
Theorem rmedian_flipud (image : ndarray) (h w : nat) (ri ro : Q)
  (inv : bool) (out : ndarray) :
  shape image = [h; w] ->
  rmedian image ri ro inv = inr out ->
  rmedian (flipud image) ri ro inv = inr (flipud out).
Proof.
  intros Hs Hout.
  destruct (rmedian_success image h w ri ro inv out Hs Hout)
    as (fp & Hfp & HK & ->).
  assert (HsF : shape (flipud image) = [h; w])
    by now rewrite (flipud_unfold image h w Hs).
  rewrite (rmedian_unfold (flipud image) h w ri ro inv fp HsF Hfp HK).
  f_equal.
  rewrite (flipud_unfold (rank_filter2 image h w _ fp _ _ reflect 0) h w)
    by reflexivity.
  unfold rank_filter2 at 1. f_equal.
  apply outer_ext_in. intros x y Hx Hy. apply in_seq in Hx, Hy.
  rewrite rank_filter2_item2 by lia.
  rewrite (offsets_selected ri ro inv fp Hfp).
  unfold window.
  rewrite (select_perm _ _ _
             (Permutation_map _ (selected_negate_perm ri ro inv fp Hfp))).
  rewrite map_map. cbn [fst snd]. f_equal.
  apply map_ext. intros d.
  rewrite pixel_flipud by (try exact Hs; lia).
  f_equal. lia.
Qed.

Lemma rmedian_flipud_witness :
  rmedian (flipud (mk_ndarray [2; 3]%nat [1; 2; 3; 4; 5; 6])) 0 1 false
  = inr (flipud (mk_ndarray [2; 3]%nat [2; 3; 3; 4; 5; 6])).
Proof.
  apply (rmedian_flipud (mk_ndarray [2; 3]%nat [1; 2; 3; 4; 5; 6]) 2 3);
    reflexivity.
Defined.

(** * File names of stamps: building and reading agree *)

Section FileNames.

Import Stamps.
Local Open Scope string_scope.

Lemma str_split_nonempty (sep : ascii) (s : string) : str_split sep s <> [].
Proof.
  induction s as [|c t IH]; simpl; [discriminate|].
  destruct (Ascii.eqb c sep); [discriminate|].
  destruct (str_split sep t); discriminate.
Qed.

Lemma str_split_whole (sep : ascii) (s : string) :
  contains sep s = false -> str_split sep s = [s].
Proof.
  induction s as [|c t IH]; simpl; [reflexivity|].
  intros H. apply orb_false_iff in H as [Hc Ht].
  rewrite Hc, (IH Ht). reflexivity.
Qed.

Lemma str_split_app (sep : ascii) (s1 s2 : string) :
  contains sep s1 = false ->
  str_split sep (s1 ++ String sep s2) = s1 :: str_split sep s2.
Proof.
  induction s1 as [|c t IH]; simpl.
  - intros _. now rewrite Ascii.eqb_refl.
  - intros H. apply orb_false_iff in H as [Hc Ht].
    rewrite Hc, (IH Ht). reflexivity.
Qed.

Lemma nth_pred_last (l : list string) (d : string) :
  l <> [] -> nth (length l - 1) l d = last l d.
Proof.
  induction l as [|x t IH]; [congruence|]. intros _.
  destruct t as [|y t]; [reflexivity|].
  specialize (IH ltac:(discriminate)).
  simpl in IH |- *. rewrite Nat.sub_0_r in IH. exact IH.
Qed.

Lemma getitem_last (l : list string) :
  l <> [] -> getitem l (-1) = inr (last l "").
Proof.
  intros Hl. unfold getitem. cbn [Z.ltb Z.compare].
  assert (Hn : (0 < length l)%nat) by (destruct l; [congruence|simpl; lia]).
  assert (E : ((0 <=? -1 + Z.of_nat (length l))
               && (-1 + Z.of_nat (length l) <? Z.of_nat (length l)))%Z = true)
    by (apply andb_true_iff; split; [apply Z.leb_le|apply Z.ltb_lt]; lia).
  rewrite E. f_equal.
  replace (Z.to_nat (-1 + Z.of_nat (length l))) with (length l - 1)%nat by lia.
  now apply nth_pred_last.
Qed.

Lemma getitem_nat (l : list string) (k : nat) :
  (k < length l)%nat -> getitem l (Z.of_nat k) = inr (nth k l "").
Proof.
  intros Hk. unfold getitem.
  assert (E0 : (Z.of_nat k <? 0)%Z = false) by (apply Z.ltb_ge; lia).
  assert (E : ((0 <=? Z.of_nat k)
               && (Z.of_nat k <? Z.of_nat (length l)))%Z = true)
    by (apply andb_true_iff; split; [apply Z.leb_le|apply Z.ltb_lt]; lia).
  now rewrite E0, E, Nat2Z.id.
Qed.

Lemma contains_digits (d : Decimal.uint) :
  contains "-" (NilEmpty.string_of_uint d) = false.
Proof. induction d; simpl; auto. Qed.

Lemma lower_char_dash (c : ascii) :
  Ascii.eqb (lower_char c) "-" = Ascii.eqb c "-".
Proof. destruct c as [[] [] [] [] [] [] [] []]; reflexivity. Qed.

Lemma contains_lower (s : string) :
  contains "-" (str_lower s) = contains "-" s.
Proof.
  induction s as [|c t IH]; simpl; [reflexivity|].
  now rewrite lower_char_dash, IH.
Qed.

Lemma new_fn_split (obj_type band old_fn : string) (num : N) :
  contains "-" obj_type = false -> contains "-" band = false ->
  exists name, new_fn obj_type num band old_fn = inr name /\
    str_split "-" name
    = obj_type :: str num :: str_lower band
      :: str_split "-"
           (str_replace "_" "-" (last (str_split "-" old_fn) "")).
Proof.
  intros Ho Hb. unfold new_fn.
  rewrite getitem_last by apply str_split_nonempty.
  eexists. split; [reflexivity|].
  change ("-" ++ ?x) with (String "-" x).
  rewrite (str_split_app "-" obj_type) by exact Ho.
  change ("-" ++ ?x) with (String "-" x).
  rewrite (str_split_app "-" (str num)) by apply contains_digits.
  change ("-" ++ ?x) with (String "-" x).
  rewrite (str_split_app "-" (str_lower band))
    by (rewrite contains_lower; exact Hb).
  reflexivity.
Qed.

(** The fields of a new name.  When neither [obj_type] nor the band
    contains a hyphen, the renaming raises nothing and the new name splits
    at its hyphens into [obj_type], [str(num)], the band in lower case,
    and then the fields of the rerun with its underscores read as
    hyphens; [fit_candy] reads the band back as the band in lower case. *)
Theorem new_fn_fields (obj_type band old_fn : string) (num : N) :
  contains "-" obj_type = false -> contains "-" band = false ->
  exists name, new_fn obj_type num band old_fn = inr name /\
    str_split "-" name
    = obj_type :: str num :: str_lower band
      :: str_split "-"
           (str_replace "_" "-" (last (str_split "-" old_fn) "")) /\
    band_of name = inr (str_lower band).
Proof.
  intros Ho Hb.
  destruct (new_fn_split obj_type band old_fn num Ho Hb) as (name & Hn & Hs).
  exists name. split; [exact Hn|]. split; [exact Hs|].
  unfold band_of. rewrite Hs.
  change 2%Z with (Z.of_nat 2).
  rewrite getitem_nat by (simpl; lia). reflexivity.
Qed.

Lemma new_fn_fields_witness :
  exists name,
    new_fn "candy" 12 "G" "3-cutout-HSC-G-9348-s16a_wide.fits" = inr name /\
    str_split "-" name = ["candy"; "12"; "g"; "s16a"; "wide.fits"].
Proof.
  destruct (new_fn_fields "candy" "G" "3-cutout-HSC-G-9348-s16a_wide.fits" 12)
    as (name & Hn & Hs & _); [reflexivity|reflexivity|].
  exists name. split; [exact Hn|exact Hs].
Defined.

Variable int : string -> error + Z.
Hypothesis int_str : forall n : N, int (str n) = inr (Z.of_N n).

(** Renamed files are found again.  Let [int] read back what [str]
    writes.  For a file renamed by [get_candy_stamps] with candidate
    number [num] ([obj_type] and the band without hyphen), the test of
    [fit_candy] for a candidate [num'] raises nothing, and holds exactly
    when the last field of the name is [wide.fits] and [num' = num]; the
    test of [run_batch_fit] holds exactly when the last field is
    [wide.fits]. *)
Theorem renamed_file_selected (obj_type band old_fn : string) (num : N)
  (num' : Z) :
  contains "-" obj_type = false -> contains "-" band = false ->
  exists name, new_fn obj_type num band old_fn = inr name /\
    let ending :=
      last (str_split "-"
              (str_replace "_" "-" (last (str_split "-" old_fn) ""))) "" in
    is_stamp name = inr (String.eqb ending "wide.fits") /\
    fit_candy_selects int num' name
    = inr (String.eqb ending "wide.fits" && (Z.of_N num =? num')%Z).
Proof.
  intros Ho Hb.
  destruct (new_fn_split obj_type band old_fn num Ho Hb) as (name & Hn & Hs).
  exists name. split; [exact Hn|]. cbv zeta.
  set (segs := str_split "-"
                 (str_replace "_" "-" (last (str_split "-" old_fn) ""))) in *.
  assert (Hsegs : segs <> []) by apply str_split_nonempty.
  assert (Hlast : getitem (str_split "-" name) (-1) = inr (last segs "")).
  { rewrite getitem_last by apply str_split_nonempty. rewrite Hs.
    f_equal. destruct segs; [congruence|reflexivity]. }
  assert (H1 : getitem (str_split "-" name) 1 = inr (str num)).
  { rewrite Hs. change 1%Z with (Z.of_nat 1).
    rewrite getitem_nat by (simpl; lia). reflexivity. }
  unfold is_stamp, fit_candy_selects. rewrite Hlast. split; [reflexivity|].
  destruct (String.eqb (last segs "") "wide.fits"); [|reflexivity].
  rewrite H1, int_str. reflexivity.
Qed.

End FileNames.

Lemma digit_not_space (c : ascii) :
  Stamps.is_digit c = true ->
  Stamps.is_space c = false /\ Ascii.eqb c "-" = false
  /\ Ascii.eqb c "+" = false.
Proof.
  destruct c as [[] [] [] [] [] [] [] []]; vm_compute;
    intros H; try discriminate H; repeat split.
Qed.

Lemma all_digits_str (d : Decimal.uint) :
  Stamps.all_digits (NilEmpty.string_of_uint d) = true.
Proof. induction d; simpl; try reflexivity; exact IHd. Qed.

Lemma rstrip_digits (s : string) :
  Stamps.all_digits s = true -> Stamps.rstrip s = s.
Proof.
  induction s as [|c t IH]; [reflexivity|]. simpl.
  intros H. apply andb_prop in H as [Hc Ht]. rewrite (IH Ht).
  destruct t; [|reflexivity].
  now rewrite (proj1 (digit_not_space c Hc)).
Qed.

Lemma strip_digits (s : string) :
  Stamps.all_digits s = true -> Stamps.str_strip s = s.
Proof.
  intros H. unfold Stamps.str_strip.
  replace (Stamps.lstrip s) with s; [now apply rstrip_digits|].
  destruct s as [|c t]; [reflexivity|]. simpl in *.
  apply andb_prop in H as [Hc _].
  now rewrite (proj1 (digit_not_space c Hc)).
Qed.

Lemma digits_of_digits (s : string) :
  Stamps.all_digits s = true -> Stamps.digits_of true s = Some s.
Proof.
  induction s as [|c t IH]; [reflexivity|]. simpl.
  intros H. apply andb_prop in H as [Hc Ht].
  now rewrite Hc, (IH Ht).
Qed.

(** [int] reads back what [str] writes. *)
Lemma int_of_str_str (n : N) :
  Stamps.int_of_str (Stamps.str n) = inr (Z.of_N n).
Proof.
  unfold Stamps.int_of_str, Stamps.str.
  assert (Hnil : N.to_uint n <> Decimal.Nil).
  { destruct n as [|p]; [discriminate|].
    intros H. pose proof (DecimalN.Unsigned.of_to (N.pos p)) as E.
    rewrite H in E. discriminate. }
  pose proof (all_digits_str (N.to_uint n)) as Hd.
  pose proof (NilZero.usu (N.to_uint n) Hnil) as E.
  replace (NilZero.string_of_uint (N.to_uint n))
    with (NilEmpty.string_of_uint (N.to_uint n)) in E
    by (destruct (N.to_uint n); [congruence|reflexivity..]).
  rewrite (strip_digits _ Hd).
  destruct (NilEmpty.string_of_uint (N.to_uint n)) as [|c t] eqn:Es.
  - destruct (N.to_uint n); [congruence|discriminate..].
  - simpl in Hd. apply andb_prop in Hd as [Hc Ht].
    destruct (digit_not_space c Hc) as (_ & Hm & Hp).
    rewrite Hm, Hp. cbn [snd fst Stamps.digits_of].
    rewrite Hc, (digits_of_digits t Ht). cbn [option_map].
    rewrite E. now rewrite DecimalN.Unsigned.of_to.
Qed.

(** Signs, blanks and underscores as [int] reads them. *)
Example int_of_str_examples :
  Stamps.int_of_str " -12 " = inr (-12)
  /\ Stamps.int_of_str "+007" = inr 7
  /\ Stamps.int_of_str "1_000" = inr 1000
  /\ Stamps.int_of_str "1__0" = inl Stamps.ValueError
  /\ Stamps.int_of_str "" = inl Stamps.ValueError
  /\ Stamps.int_of_str "g" = inl Stamps.ValueError.
Proof. vm_compute. repeat split. Qed.

Lemma renamed_file_selected_witness :
  exists name,
    Stamps.new_fn "candy" 12 "G" "3-cutout-HSC-G-9348-s16a_wide.fits"
    = inr name /\
    Stamps.fit_candy_selects Stamps.int_of_str 12 name = inr true.
Proof.
  destruct (renamed_file_selected Stamps.int_of_str int_of_str_str
              "candy" "G" "3-cutout-HSC-G-9348-s16a_wide.fits" 12 12)
    as (name & Hn & _ & Hsel); [reflexivity|reflexivity|].
  exists name. split; [exact Hn|exact Hsel].
Defined.

(** * Pixelwise maps *)

Lemma sorted_map (f : Z -> Z) (l : list Z) :
  (forall x y, x <= y -> f x <= f y) ->
  StronglySorted Z.le l -> StronglySorted Z.le (map f l).
Proof.
  intros Hf. induction 1 as [|x t Ht IH Hx]; simpl; constructor.
  - exact IH.
  - rewrite Forall_forall in *. intros y Hy.
    apply in_map_iff in Hy as (z & <- & Hz). apply Hf. now apply Hx.
Qed.

Lemma sort_map (f : Z -> Z) (l : list Z) :
  (forall x y, x <= y -> f x <= f y) ->
  sort (map f l) = map f (sort l).
Proof.
  intros Hf. apply sorted_perm_eq.
  - apply sort_sorted.
  - apply sorted_map; [exact Hf|apply sort_sorted].
  - rewrite <- (sort_perm (map f l)). apply Permutation_map, sort_perm.
Qed.

Lemma select_map (f : Z -> Z) (k : nat) (l : list Z) :
  (forall x y, x <= y -> f x <= f y) -> (k < length l)%nat ->
  select k (map f l) = f (select k l).
Proof.
  intros Hf Hk. unfold select. rewrite (sort_map f l Hf).
  rewrite (nth_indep _ 0 (f 0)) by now rewrite length_map, length_sort.
  apply map_nth.
Qed.

(** The filter commutes with non-decreasing pixelwise maps.  Let [f] be
    non-decreasing, as are the addition of a constant that stays within
    the dtype, a clipping, a rounding.  If [rmedian] returns [out] on a
    well-formed two-dimensional image, then on the image with [f] applied
    to every pixel it returns [out] with [f] applied to every pixel. *)
Theorem rmedian_nondecreasing_map (f : Z -> Z) (image : ndarray)
  (h w : nat) (ri ro : Q) (inv : bool) (out : ndarray) :
  (forall x y, x <= y -> f x <= f y) ->
  shape image = [h; w] -> well_formed image ->
  rmedian image ri ro inv = inr out ->
  rmedian (map_pixels f image) ri ro inv = inr (map_pixels f out).
Proof.
  intros Hf Hs Hwf Hout.
  destruct (rmedian_success image h w ri ro inv out Hs Hout)
    as (fp & Hfp & HK & ->).
  pose proof (wf_length image h w Hs Hwf) as Hl.
  rewrite (rmedian_unfold (map_pixels f image) h w ri ro inv fp Hs Hfp HK).
  f_equal. unfold rank_filter2, map_pixels. cbn [shape data]. f_equal.
  rewrite map_outer. apply outer_ext_in. intros i j Hi Hj.
  apply in_seq in Hi, Hj.
  rewrite <- select_map.
  - f_equal. unfold window. rewrite map_map. apply map_ext. intros d.
    destruct (pixel_reflect_index h w (Z.of_nat i + fst d)
                (Z.of_nat j + snd d)) as (k & Hk & Hpix); [lia|lia|].
    rewrite !Hpix. cbn [data].
    rewrite (nth_indep _ 0 (f 0)) by (rewrite length_map; lia).
    apply map_nth.
  - exact Hf.
  - unfold window.
    rewrite length_map, (offsets_selected ri ro inv fp Hfp).
    rewrite (length_selected ri ro inv fp Hfp).
    apply Nat.div_lt; lia.
Qed.

Lemma rmedian_nondecreasing_map_witness :
  rmedian (map_pixels (fun v => v + 10)
             (mk_ndarray [2; 3]%nat [1; 2; 3; 4; 5; 6])) 0 1 false
  = inr (map_pixels (fun v => v + 10)
           (mk_ndarray [2; 3]%nat [2; 3; 3; 4; 5; 6])).
Proof.
  apply (rmedian_nondecreasing_map (fun v => v + 10)
           (mk_ndarray [2; 3]%nat [1; 2; 3; 4; 5; 6]) 2 3).
  - intros x y Hxy. lia.
  - reflexivity.
  - reflexivity.
  - reflexivity.
Defined.
